(** * textforge: the text-shaping pipeline

    A shallow embedding of the shaping pipeline of textforge
    (package [process]: [NewShapeResult], [ShapeText],
    [requestCreateChatCompletion], [optimizePrompt],
    [optimizeResponseResult], [findMarkdownFirstCodeBlock]; package
    [openai]: [RequestCreateChatCompletion] and its helpers), with the
    properties of the pipeline proved over it.

    Go strings are byte sequences: they are modelled as [list ascii].
    Calls through the [GenerativeAIClient] interface and the network are
    modelled by explicit state passing, with a trace of the calls made. *)

From Stdlib Require Import Ascii String ZArith Lia Bool DecimalString List.
Import ListNotations.

Set Implicit Arguments.

(** ** Go strings *)

Module GoString.

Definition gostring := list ascii.

Definition LF : ascii := "010"%char.
Definition DQ : ascii := "034"%char.
Definition backslash : ascii := "092"%char.

(** [lit] reads a literal the way a Go interpreted string literal is read,
    for the one escape the sources use: backslash-n is a line feed. *)
Fixpoint lit (s : string) : gostring :=
  match s with
  | EmptyString => []
  | String c s1 =>
      match s1 with
      | String d s2 =>
          if (Ascii.eqb c backslash && Ascii.eqb d "n"%char)%bool
          then LF :: lit s2
          else c :: lit s1
      | EmptyString => [c]
      end
  end.

Fixpoint eqb (a b : gostring) : bool :=
  match a, b with
  | [], [] => true
  | x :: a', y :: b' => Ascii.eqb x y && eqb a' b'
  | _, _ => false
  end.

(** strings.HasPrefix(s, prefix) *)
Fixpoint HasPrefix (s prefix : gostring) {struct prefix} : bool :=
  match prefix, s with
  | [], _ => true
  | p :: prefix', c :: s' => Ascii.eqb c p && HasPrefix s' prefix'
  | _ :: _, [] => false
  end.

(** strings.HasSuffix(s, suffix):
    len(s) >= len(suffix) && s[len(s)-len(suffix):] == suffix *)
Definition HasSuffix (s suffix : gostring) : bool :=
  (length suffix <=? length s) && eqb (skipn (length s - length suffix) s) suffix.

(** strings.TrimPrefix-like helper that reports whether the prefix was
    there: the rest of [s] after [prefix]. *)
Fixpoint CutPrefix (s prefix : gostring) {struct prefix}
  : option gostring :=
  match prefix, s with
  | [], _ => Some s
  | p :: prefix', c :: s' => if Ascii.eqb c p then CutPrefix s' prefix' else None
  | _ :: _, [] => None
  end.

(** strings.Split(s, sep) for a separator of one byte, which is how the
    pipeline calls it (sep = "\n"): the pieces between the occurrences of
    the separator; a string without separator gives the one piece [s]. *)
Fixpoint Split (s : gostring) (sep : ascii) : list gostring :=
  match s with
  | [] => [[]]
  | c :: s' =>
      if Ascii.eqb c sep then [] :: Split s' sep
      else match Split s' sep with
           | l :: ls => (c :: l) :: ls
           | [] => [[c]]
           end
  end.

(** strings.Join(elems, sep) *)
Fixpoint Join (elems : list gostring) (sep : gostring) : gostring :=
  match elems with
  | [] => []
  | [e] => e
  | e :: rest => e ++ sep ++ Join rest sep
  end.

(** The slice expression [l[lo:hi]], for 0 <= lo <= hi <= len(l) (Go
    panics outside that range; every use below is under a guard that keeps
    the bounds in range). *)
Definition slice {A} (l : list A) (lo hi : nat) : list A :=
  firstn (hi - lo) (skipn lo l).

(** The number of line terminators a string ends with. *)
Fixpoint leading_LF (s : gostring) : nat :=
  match s with
  | c :: s' => if Ascii.eqb c LF then S (leading_LF s') else 0
  | [] => 0
  end.

Definition trailing_LF (s : gostring) : nat := leading_LF (rev s).

(** [s] ends with exactly one line terminator. *)
Definition ends_with_exactly_one_LF (s : gostring) : Prop := trailing_LF s = 1.

(** [sub] occurs in [s]. *)
Definition occurs_in (sub s : gostring) : Prop :=
  exists pre post, s = pre ++ sub ++ post.

(** The %d verb of fmt on an int. *)
Definition format_d (n : Z) : gostring :=
  list_ascii_of_string (NilZero.string_of_int (Z.to_int n)).

End GoString.
Import GoString.

(** ** Errors

    An [error] is the package's sentinel, an error value made by a library
    (encoding/json, net/http, io, or whatever a client returns), or the
    result of [fmt.Errorf] with one [%w] verb, which keeps the text before
    and after the verb and wraps the inner error. *)

Inductive error : Type :=
| ErrUnexpectedStatusCode
| LibraryError (msg : gostring)
| Errorf_w (before : gostring) (inner : error) (after : gostring).

(** The [Error()] method. *)
Fixpoint Error (e : error) : gostring :=
  match e with
  | ErrUnexpectedStatusCode => lit "unexpected status code"
  | LibraryError msg => msg
  | Errorf_w before inner after => before ++ Error inner ++ after
  end.

(** [errors.Is(e, ErrUnexpectedStatusCode)]: the sentinel is somewhere on
    the chain of wrapped errors. *)
Fixpoint Is_ErrUnexpectedStatusCode (e : error) : bool :=
  match e with
  | ErrUnexpectedStatusCode => true
  | LibraryError _ => false
  | Errorf_w _ inner _ => Is_ErrUnexpectedStatusCode inner
  end.

Definition result (A : Type) : Type := (error + A)%type.
Definition Ok {A} (a : A) : result A := inr a.
Definition Err {A} (e : error) : result A := inl e.

(** ** ShapeResult *)

Record ShapeResult : Type := mkShapeResult {
  Prompt : gostring;
  RawResult : gostring;
  Result : gostring
}.

Definition NewShapeResult (prompt rawResult result : gostring) : ShapeResult :=
  let result :=
    if negb (HasSuffix result (lit "\n")) then result ++ lit "\n" else result in
  {| Prompt := prompt; RawResult := rawResult; Result := result |}.

(** ** Regular expressions

    The fragment of the regexp syntax that the pipeline's one pattern uses:
    literals, the lazy star of a character class, concatenation and one
    capture group.  [regexp] returns the leftmost match, and among the
    matches that start there the one a backtracking engine finds first; the
    matcher below is that backtracking engine, in continuation-passing
    style.  A continuation gets what the sub-expression consumed, the
    capture of group 1 so far and the rest of the text.  Matching is on
    bytes: the pattern's literals are ASCII, so matching on runes gives the
    same submatches. *)

Module Regexp.

Inductive regex : Type :=
| Lit (l : gostring)
| LazyStar (class : ascii -> bool)
| Cat (r1 r2 : regex)
| Group (r : regex).

Section Matcher.
Variable R : Type.

Definition cont := gostring -> option gostring -> gostring -> option R.

(** [x*?] before the continuation [k]: the continuation is tried first,
    and one more character of the class is taken only when it fails. *)
Fixpoint lazy_star (class : ascii -> bool)
    (k : gostring -> gostring -> option R) (acc s : gostring) : option R :=
  match k acc s with
  | Some r => Some r
  | None =>
      match s with
      | c :: s' => if class c then lazy_star class k (acc ++ [c]) s' else None
      | [] => None
      end
  end.

Fixpoint run (r : regex) (s : gostring) (g : option gostring) (k : cont)
  : option R :=
  match r with
  | Lit l =>
      match CutPrefix s l with
      | Some s' => k l g s'
      | None => None
      end
  | LazyStar class => lazy_star class (fun acc s' => k acc g s') [] s
  | Cat r1 r2 =>
      run r1 s g (fun c1 g1 s1 =>
        run r2 s1 g1 (fun c2 g2 s2 => k (c1 ++ c2) g2 s2))
  | Group r1 => run r1 s g (fun c _ s' => k c (Some c) s')
  end.
End Matcher.

(** A match that starts at the beginning of [s]: the whole match and the
    submatch of group 1 (empty when the group took no part). *)
Definition match_here (r : regex) (s : gostring) : option (gostring * gostring) :=
  run r s None (fun c g _ =>
    Some (c, match g with Some x => x | None => [] end)).

(** re.FindStringSubmatch(text): [None] is Go's nil slice, [Some (m0, m1)]
    the slice [m0, m1]. *)
Fixpoint FindStringSubmatch (r : regex) (text : gostring)
  : option (gostring * gostring) :=
  match match_here r text with
  | Some m => Some m
  | None =>
      match text with
      | _ :: text' => FindStringSubmatch r text'
      | [] => None
      end
  end.

Definition in_range (lo hi c : ascii) : bool :=
  (nat_of_ascii lo <=? nat_of_ascii c) && (nat_of_ascii c <=? nat_of_ascii hi).

(** [a-zA-Z0-9] *)
Definition alnum (c : ascii) : bool :=
  in_range "a" "z" c || in_range "A" "Z" c || in_range "0" "9" c.

(** [.] under the flag (?s): any character, the line feed too. *)
Definition any (_ : ascii) : bool := true.

End Regexp.
Import Regexp.

(** ** The response optimizer *)

(** The pattern "(?s)```[a-zA-Z0-9]*?\n(.*?\n)```".  It is a valid
    expression, so [regexp.Compile] returns it with a nil error. *)
Definition codeBlockPattern : regex :=
  Cat (Lit (lit "```"))
   (Cat (LazyStar alnum)
    (Cat (Lit (lit "\n"))
     (Cat (Group (Cat (LazyStar any) (Lit (lit "\n"))))
          (Lit (lit "```"))))).

Definition regexp_Compile_codeBlockPattern : result regex := Ok codeBlockPattern.

Definition findMarkdownFirstCodeBlock (text : gostring) : result gostring :=
  match regexp_Compile_codeBlockPattern with
  | inl err => Err (Errorf_w (lit "error compiling regex: ") err [])
  | inr re =>
      match FindStringSubmatch re text with
      | Some (_, m1) => Ok m1
      | None => Ok []
      end
  end.

Definition optimizeResponseResult (rawResult : gostring) (useFirstCodeBlock : bool)
  : result gostring :=
  let result := rawResult in
  let result :=
    if HasPrefix result (lit "```") && HasSuffix result (lit "```") then
      let lines := Split result LF in
      if 2 <? length lines then Join (slice lines 1 (length lines - 1)) (lit "\n")
      else result
    else result in
  if useFirstCodeBlock then
    match findMarkdownFirstCodeBlock result with
    | inl err => Err (Errorf_w (lit "error finding first code block: ") err [])
    | inr codeBlock =>
        if negb (eqb codeBlock []) then Ok codeBlock else Ok result
    end
  else Ok result.

(** ** Wire types *)

(** Modelled from the spec: the declarations of [ChatMessage],
    [CreateChatCompletion], [ChatCompletion], its choices and
    [ErrorResponse] are not among the sources; the fields are the ones the
    sources read and the data model lists. *)
Record ChatMessage : Type := mkChatMessage {
  Role : gostring;
  Content : gostring
}.

Record CreateChatCompletion : Type := mkCreateChatCompletion {
  ccModel : gostring;
  Messages : list ChatMessage;
  MaxTokens : option Z;
  N : Z;
  Seed : Z;
  ResponseFormat : gostring;
  Stream : bool
}.

Record ChatCompletionChoice : Type := mkChoice {
  Index : Z;
  Message : ChatMessage;
  FinishReason : gostring
}.

Record ChatCompletion : Type := mkChatCompletion {
  ID : gostring;
  Object : gostring;
  Created : Z;
  Model : gostring;
  SystemFingerprint : gostring;
  Choices : list ChatCompletionChoice
}.

Record ErrorDetail : Type := mkErrorDetail { ErrMessage : gostring }.
Record ErrorResponse : Type := mkErrorResponse { ErrorField : ErrorDetail }.

(** ** The shaper

    [W] is the state of whatever stands behind the client (the network, a
    script of canned responses).  A method of the interface is a state
    transformer on [W]; the shaper's own computations run on [W] together
    with the trace of the interface calls made so far. *)

Module Process.

Section WithWorld.
Variable W : Type.

(** type GenerativeAIClient interface.  A successful
    RequestCreateChatCompletion returns a completion (the clients of the
    repository never return a nil completion with a nil error). *)
Record GenerativeAIClient : Type := mkClient {
  RequestCreateChatCompletion :
    CreateChatCompletion -> W -> result ChatCompletion * W;
  MakeCreateChatCompletion : gostring -> W -> CreateChatCompletion * W
}.

Record Shaper : Type := mkShaper {
  gai : GenerativeAIClient;
  maxCompletionRepeatCount : Z;
  useFirstCodeBlock : bool;
  promptOptimize : bool
}.

Definition NewShaper (gai : GenerativeAIClient) (maxCompletionRepeatCount : Z)
    (useFirstCodeBlock promptOptimize : bool) : Shaper :=
  {| gai := gai; maxCompletionRepeatCount := maxCompletionRepeatCount;
     useFirstCodeBlock := useFirstCodeBlock; promptOptimize := promptOptimize |}.

(** The calls through the interface, in the order they were made. *)
Inductive Call : Type :=
| CallMake (prompt : gostring) (made : CreateChatCompletion)
| CallRequest (cr : CreateChatCompletion).

Definition State : Type := (W * list Call)%type.

Definition M (A : Type) : Type := State -> result A * State.

Definition ret {A} (a : A) : M A := fun st => (Ok a, st).

Definition fail {A} (e : error) : M A := fun st => (Err e, st).

Definition bind {A B} (m : M A) (f : A -> M B) : M B :=
  fun st =>
    match m st with
    | (inl e, st') => (Err e, st')
    | (inr a, st') => f a st'
    end.

Notation "x <- m ;; k" := (bind m (fun x => k))
  (at level 61, m at next level, right associativity).

(** s.gai.MakeCreateChatCompletion(prompt) *)
Definition callMake (s : Shaper) (prompt : gostring) : M CreateChatCompletion :=
  fun '(w, tr) =>
    let '(cr, w') := MakeCreateChatCompletion (gai s) prompt w in
    (Ok cr, (w', tr ++ [CallMake prompt cr])).

(** s.gai.RequestCreateChatCompletion(cr), the error left as returned *)
Definition callRequest (s : Shaper) (cr : CreateChatCompletion)
  : State -> result ChatCompletion * State :=
  fun '(w, tr) =>
    let '(r, w') := RequestCreateChatCompletion (gai s) cr w in
    (r, (w', tr ++ [CallRequest cr])).

(** The body of the loop [for i := 0; i < maxCount; i++] with [n]
    iterations left, [result] being the accumulated content. *)
Fixpoint requestLoop (s : Shaper) (n : nat) (cr : CreateChatCompletion)
    (result : gostring) : M gostring :=
  match n with
  | O => ret result
  | S n' =>
      fun st =>
        match callRequest s cr st with
        | (inl err, st') =>
            (Err (Errorf_w (lit "failed to send chat message: ") err []), st')
        | (inr comp, st') =>
            match Choices comp with
            | [] => ret result st'
            | choice :: _ =>
                let result := result ++ Content (Message choice) in
                if negb (eqb (FinishReason choice) (lit "length"))
                then ret result st'
                else requestLoop s n' cr result st'
            end
        end
  end.

Definition requestCreateChatCompletion (s : Shaper) (prompt : gostring)
  : M gostring :=
  cr <- callMake s prompt ;;
  let maxCount := 1%Z in
  requestLoop s (Z.to_nat (maxCount - 0)) cr [].

Definition optimizePrompt (prompt input : gostring) : gostring :=
  let supplements :=
    [ lit "The subject of the Instruction is the area enclosed by the ai-text-shaper-input tag.";
      lit "The result should be returned in the language of the Instruction, but if the Instruction has a language specification, that language should be given priority.";
      lit "Provide additional explanations or details only if explicitly requested in the Instruction." ] in
  let supplementation := Join supplements (lit " ") in
  let mergedPrmpt :=
    lit "<Instruction>" ++ prompt ++ lit ". (" ++ supplementation
    ++ lit ")</Instruction>\n<ai-text-shaper-input>" ++ input
    ++ lit "</ai-text-shaper-input>" in
  mergedPrmpt.

Definition ShapeText (s : Shaper) (promptOrg inputOrg : gostring)
  : M ShapeResult :=
  if eqb inputOrg [] && negb (promptOptimize s) then
    rawResult <- requestCreateChatCompletion s promptOrg ;;
    let result := rawResult in
    ret (NewShapeResult promptOrg rawResult result)
  else
    let optimized := optimizePrompt promptOrg inputOrg in
    rawResult <- requestCreateChatCompletion s optimized ;;
    match optimizeResponseResult rawResult (useFirstCodeBlock s) with
    | inl err => fail err
    | inr result => ret (NewShapeResult optimized rawResult result)
    end.

End WithWorld.

Arguments ret {W A} a _.
Arguments fail {W A} e _.

(** For the statements below: the result of a requester call whose one
    request the client answered with [r]. *)
Definition answerOf (r : result ChatCompletion) : result gostring :=
  match r with
  | inl err => Err (Errorf_w (lit "failed to send chat message: ") err [])
  | inr comp =>
      match Choices comp with
      | [] => Ok []
      | choice :: _ => Ok (Content (Message choice))
      end
  end.

(** A client that answers from a script: the state is the list of the
    responses still to give; a request takes the next one. *)
Definition scriptedRequest (_ : CreateChatCompletion)
    (w : list (result ChatCompletion))
  : result ChatCompletion * list (result ChatCompletion) :=
  match w with
  | r :: w' => (r, w')
  | [] => (Err (LibraryError (lit "no response")), [])
  end.

Definition scriptedMake (prompt : gostring) (w : list (result ChatCompletion))
  : CreateChatCompletion * list (result ChatCompletion) :=
  ({| ccModel := lit "gpt-4o";
      Messages := [ {| Role := lit "user"; Content := prompt |} ];
      MaxTokens := None; N := 1%Z; Seed := 0%Z;
      ResponseFormat := []; Stream := false |}, w).

Definition scriptedClient : GenerativeAIClient (list (result ChatCompletion)) :=
  {| RequestCreateChatCompletion := scriptedRequest;
     MakeCreateChatCompletion := scriptedMake |}.

(** A completion with the given choices, as (content, finish reason). *)
Definition completionOf (choices : list (gostring * gostring)) : ChatCompletion :=
  {| ID := lit "id"; Object := lit "chat.completion"; Created := 0%Z;
     Model := lit "gpt-4o"; SystemFingerprint := [];
     Choices :=
       map (fun '(c, f) =>
              {| Index := 0%Z;
                 Message := {| Role := lit "assistant"; Content := c |};
                 FinishReason := f |}) choices |}.

End Process.
Import Process.

(** ** The transport (package openai)

    The libraries the transport calls are parameters: encoding/json
    ([json.Marshal], [json.Unmarshal] into the two response types),
    [http.NewRequestWithContext] and the [Do] method of [http.Client].  A library call
    that fails gives the text of its error.  The response carries what
    [io.ReadAll(resp.Body)] returns.  The [fmt.Printf] calls of the logging
    switch and of the deferred [Close] write to standard output only; the
    output stream is not part of the state. *)

Module OpenAI.

Definition libresult (A : Type) : Type := (gostring + A)%type.

Record HttpRequest : Type := mkHttpRequest {
  Method : gostring;
  URL : gostring;
  Header : list (gostring * gostring);
  RequestBody : gostring
}.

(** req.Header.Set(key, value) *)
Definition Header_Set (req : HttpRequest) (key value : gostring) : HttpRequest :=
  {| Method := Method req; URL := URL req;
     Header := (key, value)
               :: filter (fun kv => negb (eqb (fst kv) key)) (Header req);
     RequestBody := RequestBody req |}.

Record HttpResponse : Type := mkHttpResponse {
  StatusCode : Z;
  ReadAll_Body : libresult gostring
}.

Record ChatClient : Type := mkChatClient {
  apikey : gostring;
  model : gostring;
  logLevel : gostring;
  maxTokens : option Z
}.

Definition New (apikey model logLevel : gostring) (maxTokens : option Z)
  : ChatClient :=
  {| apikey := apikey; model := model; logLevel := logLevel;
     maxTokens := maxTokens |}.

Section Transport.
Variable W : Type.
Variable Context : Type.
Variable json_Marshal : CreateChatCompletion -> libresult gostring.
Variable http_NewRequestWithContext :
  Context -> gostring -> gostring -> gostring -> libresult HttpRequest.
Variable client_Do : HttpRequest -> W -> libresult HttpResponse * W.
Variable json_Unmarshal_ErrorResponse : gostring -> libresult ErrorResponse.
Variable json_Unmarshal_ChatCompletion : gostring -> libresult ChatCompletion.

Definition sendChatCompletionsRequest (c : ChatClient) (ctx : Context)
    (ccc : CreateChatCompletion) (w : W) : result HttpResponse * W :=
  match json_Marshal ccc with
  | inl err =>
      (Err (Errorf_w (lit "failed to marshal request body: ")
                     (LibraryError err) []), w)
  | inr requestBody =>
      match http_NewRequestWithContext ctx (lit "POST")
              (lit "https://api.openai.com/v1/chat/completions") requestBody with
      | inl err =>
          (Err (Errorf_w (lit "failed to create new request: ")
                         (LibraryError err) []), w)
      | inr req =>
          let req := Header_Set req (lit "Content-Type") (lit "application/json") in
          let req := Header_Set req (lit "Authorization")
                       (lit "Bearer " ++ apikey c) in
          match client_Do req w with
          | (inl err, w') =>
              (Err (Errorf_w (lit "request failed: ") (LibraryError err) []), w')
          | (inr resp, w') => (Ok resp, w')
          end
      end
  end.

Definition makeChatCompletions (c : ChatClient) (body : gostring)
  : result ChatCompletion :=
  match json_Unmarshal_ChatCompletion body with
  | inl err =>
      Err (Errorf_w (lit "failed to unmarshal response body: ")
                    (LibraryError err) [])
  | inr comp => Ok comp
  end.

Definition RequestCreateChatCompletion (c : ChatClient) (ctx : Context)
    (ccc : CreateChatCompletion) (w : W) : result ChatCompletion * W :=
  match sendChatCompletionsRequest c ctx ccc w with
  | (inl err, w') =>
      (Err (Errorf_w (lit "failed to execute request: ") err []), w')
  | (inr resp, w') =>
      match ReadAll_Body resp with
      | inl err =>
          (Err (Errorf_w (lit "failed to read response body: ")
                         (LibraryError err) []), w')
      | inr respBody =>
          if (299 <? StatusCode resp)%Z then
            match json_Unmarshal_ErrorResponse respBody with
            | inl err =>
                (Err (Errorf_w (lit "failed to unmarshal error response: ")
                               (LibraryError err) []), w')
            | inr errorResponse =>
                (Err (Errorf_w [] ErrUnexpectedStatusCode
                        (lit ": " ++ format_d (StatusCode resp) ++ lit " '"
                         ++ ErrMessage (ErrorField errorResponse) ++ lit "'")),
                 w')
            end
          else (makeChatCompletions c respBody, w')
      end
  end.
End Transport.

(** *** A concrete instance, to run the transport on examples *)

Definition quoted (s : gostring) : gostring := DQ :: s ++ [DQ].

(** The characters of [s] up to the first double quote, and what follows
    that quote. *)
Fixpoint until_quote (s : gostring) : option (gostring * gostring) :=
  match s with
  | [] => None
  | c :: s' =>
      if Ascii.eqb c DQ then Some ([], s')
      else match until_quote s' with
           | Some (a, r) => Some (c :: a, r)
           | None => None
           end
  end.

(** A decoder for error bodies of the one shape: an object whose [error]
    member is an object whose [message] member is a string without
    escapes, written without white space; it stands for [json.Unmarshal]
    on the bodies of the examples. *)
Definition decodeErrorBody (body : gostring) : libresult ErrorResponse :=
  match CutPrefix body
          (lit "{" ++ quoted (lit "error") ++ lit ":{"
           ++ quoted (lit "message") ++ lit ":" ++ [DQ]) with
  | Some rest =>
      match until_quote rest with
      | Some (msg, tail) =>
          if eqb tail (lit "}}")
          then inr {| ErrorField := {| ErrMessage := msg |} |}
          else inl (lit "invalid character after top-level value")
      | None => inl (lit "unexpected end of JSON input")
      end
  | None => inl (lit "cannot unmarshal error response")
  end.

(** A network that answers every request with the one response it holds. *)
Definition cannedDo (_ : HttpRequest) (w : HttpResponse)
  : libresult HttpResponse * HttpResponse := (inr w, w).

Definition cannedNewRequest (_ : unit) (method url body : gostring)
  : libresult HttpRequest :=
  inr {| Method := method; URL := url; Header := []; RequestBody := body |}.

Definition cannedMarshal (ccc : CreateChatCompletion) : libresult gostring :=
  inr (lit "{}").

Definition noCompletionDecoder (_ : gostring) : libresult ChatCompletion :=
  inl (lit "unexpected end of JSON input").

Definition cannedRequest (c : ChatClient) (ccc : CreateChatCompletion)
    (w : HttpResponse) : result ChatCompletion * HttpResponse :=
  RequestCreateChatCompletion cannedMarshal cannedNewRequest cannedDo
    decodeErrorBody noCompletionDecoder c tt ccc w.

Definition badRequestBody : gostring :=
  lit "{" ++ quoted (lit "error") ++ lit ":{" ++ quoted (lit "message")
  ++ lit ":" ++ quoted (lit "bad request") ++ lit "}}".

End OpenAI.

(** ** The command (package cmd): the list of input files

    [strings.TrimSpace] removes the white space runes a string starts with
    and the ones it ends with.  On bytes: a white space rune is one of the
    six ASCII characters below or the UTF-8 encoding of U+0085, U+00A0,
    U+1680, U+2000 to U+200A, U+2028, U+2029, U+202F, U+205F or U+3000 (the
    runes of [unicode.IsSpace]); a byte that starts no valid encoding is
    the rune U+FFFD, which is no white space. *)

Module Cmd.

Definition byte (n : nat) : ascii := ascii_of_nat n.

Definition whiteSpace : list gostring :=
  [ [byte 9]; [byte 10]; [byte 11]; [byte 12]; [byte 13]; [byte 32];
    [byte 194; byte 133]; [byte 194; byte 160];
    [byte 225; byte 154; byte 128] ]
  ++ map (fun n => [byte 226; byte 128; byte n]) (seq 128 11)
  ++ [ [byte 226; byte 128; byte 168]; [byte 226; byte 128; byte 169];
       [byte 226; byte 128; byte 175]; [byte 226; byte 129; byte 159];
       [byte 227; byte 128; byte 128] ].

(** The rest of [s] after the first of [runes] that [s] starts with. *)
Fixpoint cutAny (runes : list gostring) (s : gostring) : option gostring :=
  match runes with
  | [] => None
  | r :: runes' =>
      match CutPrefix s r with
      | Some rest => Some rest
      | None => cutAny runes' s
      end
  end.

(** [s] without the [runes] it starts with; [fuel] bounds the number of
    runes taken off, and the length of [s] is enough. *)
Fixpoint trimLeading (runes : list gostring) (fuel : nat) (s : gostring)
  : gostring :=
  match fuel with
  | O => s
  | S fuel' =>
      match cutAny runes s with
      | Some rest => trimLeading runes fuel' rest
      | None => s
      end
  end.

Definition TrimLeftSpace (s : gostring) : gostring :=
  trimLeading whiteSpace (length s) s.

Definition TrimRightSpace (s : gostring) : gostring :=
  rev (trimLeading (map (@rev ascii) whiteSpace) (length s) (rev s)).

(** strings.TrimSpace(s) *)
Definition TrimSpace (s : gostring) : gostring :=
  TrimRightSpace (TrimLeftSpace s).

(** The loop [for _, line := range lines] of readInputFiles, [files] being
    the slice built so far. *)
Fixpoint collectFiles (lines files : list gostring) : list gostring :=
  match lines with
  | [] => files
  | line :: lines' =>
      let line := TrimSpace line in
      if eqb line [] || HasPrefix line (lit "#")
      then collectFiles lines' files
      else collectFiles lines' (files ++ [line])
  end.

Section WithFiles.
(** os.ReadFile on the files as they are: the content, or the text of the
    error. *)
Variable os_ReadFile : gostring -> gostring + gostring.

Definition readInputFiles (fileName : gostring) : result (list gostring) :=
  match os_ReadFile fileName with
  | inl err =>
      Err (Errorf_w (lit "failed to read input files from " ++ fileName ++ lit ": ")
                    (LibraryError err) [])
  | inr data =>
      let lines := Split (TrimSpace data) LF in
      let files := [] in
      Ok (collectFiles lines files)
  end.
End WithFiles.

(** A file system with the one file [list.txt]. *)
Definition oneFile (content : gostring) (fileName : gostring)
  : gostring + gostring :=
  if eqb fileName (lit "list.txt") then inr content
  else inl (lit "open " ++ fileName ++ lit ": no such file or directory").

End Cmd.

(** * Evaluation on small inputs *)

Example opt_hello :
  optimizeResponseResult (lit "```\nHELLO\n```") false = Ok (lit "HELLO").
Proof. reflexivity. Qed.


Example opt_two_blocks :
  optimizeResponseResult (lit "x\n```js\nA\n```\n```py\nB\n```\n") true
  = Ok (lit "A\n").
Proof. reflexivity. Qed.


Example opt_two_blocks_wrapped :
  optimizeResponseResult (lit "```js\nA\n```\n```py\nB\n```") true
  = Ok (lit "A\n```\n```py\nB").
Proof. reflexivity. Qed.


Example opt_six_backticks :
  optimizeResponseResult (lit "``````") true = Ok (lit "``````").
Proof. reflexivity. Qed.


Example direct_mode_run :
  fst (ShapeText (NewShaper scriptedClient 5 false false) (lit "say hi") []
         ([Ok (completionOf [(lit "hi\n\n", lit "stop")])], []))
  = Ok {| Prompt := lit "say hi"; RawResult := lit "hi\n\n";
          Result := lit "hi\n\n" |}.
Proof. reflexivity. Qed.


Example status_400_run :
  let c := OpenAI.New (lit "key") (lit "gpt-4o") [] None in
  let ccc := fst (scriptedMake (lit "p") []) in
  let w := {| OpenAI.StatusCode := 400;
              OpenAI.ReadAll_Body := inr OpenAI.badRequestBody |} in
  match fst (OpenAI.cannedRequest c ccc w) with
  | inl e => Error e = lit "unexpected status code: 400 'bad request'"
  | inr _ => False
  end.
Proof. reflexivity. Qed.

(** * Facts about Go strings *)

Section StringFacts.

Lemma eqb_refl (a : gostring) : eqb a a = true.
Proof.
  induction a as [|c a IH]; simpl; [reflexivity|].
  now rewrite Ascii.eqb_refl, IH.
Qed.

Lemma eqb_eq (a b : gostring) : eqb a b = true <-> a = b.
Proof.
  split; [|intros ->; apply eqb_refl].
  revert b; induction a as [|c a IH]; intros [|d b]; simpl; try easy.
  rewrite andb_true_iff, Ascii.eqb_eq. intros [-> H]. f_equal; auto.
Qed.

Lemma eqb_neq (a b : gostring) : eqb a b = false <-> a <> b.
Proof.
  rewrite <- eqb_eq. destruct (eqb a b); split; congruence.
Qed.

Lemma HasPrefix_iff (s prefix : gostring) :
  HasPrefix s prefix = true <-> exists r, s = prefix ++ r.
Proof.
  revert s; induction prefix as [|p prefix IH]; intros s; simpl.
  - split; [intros _; now exists s | intros _; reflexivity].
  - destruct s as [|c s].
    + split; [discriminate | intros [r H]; discriminate].
    + rewrite andb_true_iff, Ascii.eqb_eq, IH. split.
      * intros [-> [r ->]]. now exists r.
      * intros [r H]. injection H as -> ->. split; [reflexivity | now exists r].
Qed.

Lemma HasPrefix_app (prefix r : gostring) : HasPrefix (prefix ++ r) prefix = true.
Proof. apply HasPrefix_iff. now exists r. Qed.

Lemma HasSuffix_iff (s suffix : gostring) :
  HasSuffix s suffix = true <-> exists r, s = r ++ suffix.
Proof.
  unfold HasSuffix. rewrite andb_true_iff, Nat.leb_le, eqb_eq. split.
  - intros [Hlen H]. remember (length s - length suffix) as n eqn:Hn.
    clear Hn. exists (firstn n s).
    subst suffix. symmetry; apply firstn_skipn.
  - intros [r ->]. rewrite length_app. split; [lia|].
    replace (length r + length suffix - length suffix) with (length r + 0) by lia.
    now rewrite skipn_app, Nat.add_0_r, skipn_all, Nat.sub_diag.
Qed.

Lemma HasSuffix_app (r suffix : gostring) : HasSuffix (r ++ suffix) suffix = true.
Proof. apply HasSuffix_iff. now exists r. Qed.

Lemma CutPrefix_iff (s prefix r : gostring) :
  CutPrefix s prefix = Some r <-> s = prefix ++ r.
Proof.
  revert s; induction prefix as [|p prefix IH]; intros s; simpl.
  - split; [now intros [= ->] | now intros ->].
  - destruct s as [|c s]; [easy|].
    destruct (Ascii.eqb_spec c p) as [->|Hne].
    + rewrite IH. split; [now intros -> | now intros [= ->]].
    + split; [discriminate | intros [= -> _]; congruence].
Qed.

(** *** Trailing line terminators *)

Lemma HasSuffix_LF_rev (s : gostring) :
  HasSuffix s [LF] = HasPrefix (rev s) [LF].
Proof.
  apply eq_true_iff_eq. rewrite HasSuffix_iff, HasPrefix_iff. split.
  - intros [r ->]. rewrite rev_app_distr. now exists (rev r).
  - intros [r H]. exists (rev r).
    rewrite <- (rev_involutive s), H. reflexivity.
Qed.

Lemma HasSuffix_LF_trailing (s : gostring) :
  HasSuffix s [LF] = (1 <=? trailing_LF s).
Proof.
  rewrite HasSuffix_LF_rev. unfold trailing_LF.
  destruct (rev s) as [|c t]; simpl; [reflexivity|].
  destruct (Ascii.eqb c LF); reflexivity.
Qed.

Lemma trailing_LF_snoc (s : gostring) :
  trailing_LF (s ++ [LF]) = S (trailing_LF s).
Proof.
  unfold trailing_LF. rewrite rev_app_distr. reflexivity.
Qed.

End StringFacts.

(** * The trailing line terminator of a ShapeResult *)

Section Normalization.

Lemma NewShapeResult_Result (prompt rawResult result : gostring) :
  Result (NewShapeResult prompt rawResult result)
  = if HasSuffix result (lit "\n") then result else result ++ lit "\n".
Proof.
  unfold NewShapeResult; simpl. change (lit "\n") with [LF].
  destruct (HasSuffix result [LF]); reflexivity.
Qed.

Lemma NewShapeResult_trailing (prompt rawResult result : gostring) :
  trailing_LF (Result (NewShapeResult prompt rawResult result))
  = Nat.max 1 (trailing_LF result).
Proof.
  rewrite NewShapeResult_Result. change (lit "\n") with [LF].
  rewrite HasSuffix_LF_trailing.
  destruct (Nat.leb_spec 1 (trailing_LF result)) as [H|H].
  - lia.
  - rewrite trailing_LF_snoc. lia.
Qed.

Lemma NewShapeResult_terminated (prompt rawResult result : gostring) :
  HasSuffix (Result (NewShapeResult prompt rawResult result)) (lit "\n") = true.
Proof.
  change (lit "\n") with [LF]. rewrite HasSuffix_LF_trailing.
  change [LF] with (lit "\n"). rewrite NewShapeResult_trailing.
  apply Nat.leb_le. lia.
Qed.

(** C8. The normalization of [NewShapeResult] is idempotent: normalizing
    its own Result changes nothing; a result that already ends with a line
    terminator is kept as it is and one that lacks it gets exactly one
    "\n" appended; the terminators a result ends with are never collapsed:
    their number becomes the larger of one and what it was. *)
Theorem NewShapeResult_normalization_idempotent
    (prompt rawResult result prompt' rawResult' : gostring) :
  let once := Result (NewShapeResult prompt rawResult result) in
  Result (NewShapeResult prompt' rawResult' once) = once
  /\ once = (if HasSuffix result (lit "\n") then result else result ++ lit "\n")
  /\ length once
     = length result + (if HasSuffix result (lit "\n") then 0 else 1)
  /\ trailing_LF once = Nat.max 1 (trailing_LF result).
Proof.
  intros once. repeat split.
  - rewrite NewShapeResult_Result. unfold once.
    now rewrite NewShapeResult_terminated.
  - apply NewShapeResult_Result.
  - unfold once. rewrite NewShapeResult_Result.
    destruct (HasSuffix result (lit "\n")); [lia|].
    rewrite length_app; simpl; lia.
  - apply NewShapeResult_trailing.
Qed.

End Normalization.

(** * The completion requester and the orchestrator *)

Section ShaperFacts.
Variable W : Type.
Implicit Types (s : Shaper W) (w : W) (tr : list Call).

Lemma requestLoop_one s cr acc w tr :
  requestLoop s 1 cr acc (w, tr)
  = (match fst (RequestCreateChatCompletion (gai s) cr w) with
     | inl err => Err (Errorf_w (lit "failed to send chat message: ") err [])
     | inr comp =>
         match Choices comp with
         | [] => Ok acc
         | choice :: _ => Ok (acc ++ Content (Message choice))
         end
     end,
     (snd (RequestCreateChatCompletion (gai s) cr w), tr ++ [CallRequest cr])).
Proof.
  simpl. destruct (RequestCreateChatCompletion (gai s) cr w) as [[err|comp] w'];
    simpl; [reflexivity|].
  destruct (Choices comp) as [|choice rest]; [reflexivity|].
  destruct (negb (eqb (FinishReason choice) _)); reflexivity.
Qed.

Lemma requestCreateChatCompletion_eq s prompt w tr :
  let '(cr, w1) := MakeCreateChatCompletion (gai s) prompt w in
  let '(r, w2) := RequestCreateChatCompletion (gai s) cr w1 in
  requestCreateChatCompletion s prompt (w, tr)
  = (answerOf r, (w2, tr ++ [CallMake prompt cr; CallRequest cr])).
Proof.
  destruct (MakeCreateChatCompletion (gai s) prompt w) as [cr w1] eqn:Hmake.
  destruct (RequestCreateChatCompletion (gai s) cr w1) as [r w2] eqn:Hreq.
  unfold requestCreateChatCompletion, bind, callMake. rewrite Hmake.
  cbv zeta. change (Z.to_nat (1 - 0)) with 1. unfold Ok at 1. cbv iota beta.
  rewrite requestLoop_one, Hreq. simpl.
  rewrite <- app_assoc. simpl. unfold answerOf.
  destruct r as [err|comp]; [reflexivity|].
  destruct (Choices comp); reflexivity.
Qed.

(** C2. One call of [requestCreateChatCompletion] makes exactly one
    request object and sends it exactly once, whatever
    maxCompletionRepeatCount the shaper was built with: the calls it adds
    to the trace are the one Make and the one Request.  Its result is the
    content of the first choice of that one response, whatever the other
    choices are and whatever the finish reason is: a first choice that
    finished with "length" is returned as it is, with no further request
    and no error. *)
Theorem requestCreateChatCompletion_single_request
    (client : GenerativeAIClient W) (count : Z) (firstBlock optimize : bool)
    prompt w tr :
  let s := NewShaper client count firstBlock optimize in
  let '(cr, w1) := MakeCreateChatCompletion client prompt w in
  let '(r, w2) := RequestCreateChatCompletion client cr w1 in
  requestCreateChatCompletion s prompt (w, tr)
  = (answerOf r, (w2, tr ++ [CallMake prompt cr; CallRequest cr]))
  /\ forall comp choice rest,
       r = Ok comp -> Choices comp = choice :: rest ->
       FinishReason choice = lit "length" ->
       requestCreateChatCompletion s prompt (w, tr)
       = (Ok (Content (Message choice)),
          (w2, tr ++ [CallMake prompt cr; CallRequest cr])).
Proof.
  intros s.
  pose proof (requestCreateChatCompletion_eq s prompt w tr) as H.
  change (gai s) with client in H.
  destruct (MakeCreateChatCompletion client prompt w) as [cr w1].
  destruct (RequestCreateChatCompletion client cr w1) as [r w2].
  split; [exact H|].
  intros comp choice rest -> Hch _. rewrite H. unfold answerOf, Ok.
  now rewrite Hch.
Qed.

(** C6. A response without choices ends the call with what has
    accumulated, as a success: the loop returns its accumulator, and the
    call, whose accumulator is still empty, returns the empty string. *)
Theorem requestCreateChatCompletion_no_choices
    s prompt w tr cr w1 comp w2 :
  MakeCreateChatCompletion (gai s) prompt w = (cr, w1) ->
  RequestCreateChatCompletion (gai s) cr w1 = (Ok comp, w2) ->
  Choices comp = [] ->
  requestCreateChatCompletion s prompt (w, tr)
  = (Ok [], (w2, tr ++ [CallMake prompt cr; CallRequest cr]))
  /\ forall n acc tr1,
       requestLoop s (S n) cr acc (w1, tr1)
       = (Ok acc, (w2, tr1 ++ [CallRequest cr])).
Proof.
  intros Hmake Hreq Hch. split.
  - pose proof (requestCreateChatCompletion_eq s prompt w tr) as H.
    rewrite Hmake, Hreq in H. rewrite H. unfold answerOf, Ok.
    now rewrite Hch.
  - intros n acc tr1. simpl. rewrite Hreq. unfold Ok. cbv iota beta.
    now rewrite Hch.
Qed.

(** C7. Direct mode: with an empty input and prompt optimization off,
    the request is made for the original prompt as it is, the
    ShapeResult carries that prompt, the raw result is the completion
    text, and Result is the raw result with the trailing terminator
    normalized and nothing else done to it. *)
Theorem ShapeText_direct_mode s promptOrg w tr cr w1 comp w2 :
  promptOptimize s = false ->
  MakeCreateChatCompletion (gai s) promptOrg w = (cr, w1) ->
  RequestCreateChatCompletion (gai s) cr w1 = (Ok comp, w2) ->
  exists sr,
    ShapeText s promptOrg [] (w, tr)
    = (Ok sr, (w2, tr ++ [CallMake promptOrg cr; CallRequest cr]))
    /\ Prompt sr = promptOrg
    /\ answerOf (Ok comp) = Ok (RawResult sr)
    /\ Result sr
       = (if HasSuffix (RawResult sr) (lit "\n") then RawResult sr
          else RawResult sr ++ lit "\n").
Proof.
  intros Hopt Hmake Hreq.
  pose proof (requestCreateChatCompletion_eq s promptOrg w tr) as H.
  rewrite Hmake, Hreq in H.
  unfold ShapeText, bind. rewrite Hopt. cbn [eqb negb andb].
  rewrite H.
  assert (Hans : exists raw, answerOf (Ok comp) = Ok raw).
  { unfold answerOf, Ok. destruct (Choices comp); eauto. }
  destruct Hans as [raw Hraw]. rewrite Hraw. unfold Ok at 1. cbv iota beta.
  eexists. split; [reflexivity|].
  split; [reflexivity|]. split; [reflexivity|].
  apply NewShapeResult_Result.
Qed.

(** C1 (amended). Every ShapeResult that [ShapeText] returns has a Result
    that ends with a line terminator; it is the computed result (the raw
    completion in direct mode, the optimized response otherwise) with one
    "\n" appended when it lacked one, so it ends with as many terminators
    as the computed result, and with one when that had none. *)
Theorem ShapeText_Result_terminated s promptOrg inputOrg st sr st' :
  ShapeText s promptOrg inputOrg st = (Ok sr, st') ->
  HasSuffix (Result sr) (lit "\n") = true
  /\ exists computed,
       (if eqb inputOrg [] && negb (promptOptimize s)
        then computed = RawResult sr
        else optimizeResponseResult (RawResult sr) (useFirstCodeBlock s)
             = Ok computed)
       /\ Result sr
          = (if HasSuffix computed (lit "\n") then computed
             else computed ++ lit "\n")
       /\ trailing_LF (Result sr) = Nat.max 1 (trailing_LF computed).
Proof.
  unfold ShapeText, bind.
  destruct (eqb inputOrg [] && negb (promptOptimize s)).
  - destruct (requestCreateChatCompletion s promptOrg st) as [[err|raw] st1];
      [discriminate|].
    unfold ret. intros [= <- _]. split; [apply NewShapeResult_terminated|].
    exists raw. split; [reflexivity|].
    split; [apply NewShapeResult_Result | apply NewShapeResult_trailing].
  - destruct (requestCreateChatCompletion s _ st) as [[err|raw] st1];
      [discriminate|].
    destruct (optimizeResponseResult raw (useFirstCodeBlock s))
      as [err|computed] eqn:Hopt; [discriminate|].
    unfold ret. intros [= <- _]. split; [apply NewShapeResult_terminated|].
    exists computed. split; [exact Hopt|].
    split; [apply NewShapeResult_Result | apply NewShapeResult_trailing].
Qed.

End ShaperFacts.

(** The script of one response with the given choices. *)
Lemma requestCreateChatCompletion_single_request_witness :
  requestCreateChatCompletion (NewShaper scriptedClient 7 true true) (lit "p")
    ([Ok (completionOf [(lit "par", lit "length"); (lit "other", lit "stop")]);
      Ok (completionOf [(lit "tial", lit "stop")])], [])
  = (Ok (lit "par"),
     ([Ok (completionOf [(lit "tial", lit "stop")])],
      [CallMake (lit "p") (fst (scriptedMake (lit "p") []));
       CallRequest (fst (scriptedMake (lit "p") []))])).
Proof.
  exact (proj2 (requestCreateChatCompletion_single_request scriptedClient 7 true true
           (lit "p")
           [Ok (completionOf [(lit "par", lit "length"); (lit "other", lit "stop")]);
            Ok (completionOf [(lit "tial", lit "stop")])] [])
         _ _ _ eq_refl eq_refl eq_refl).
Defined.

Lemma requestCreateChatCompletion_no_choices_witness :
  requestCreateChatCompletion (NewShaper scriptedClient 1 false true) (lit "p")
    ([Ok (completionOf [])], [])
  = (Ok [], ([], [CallMake (lit "p") (fst (scriptedMake (lit "p") []));
                  CallRequest (fst (scriptedMake (lit "p") []))])).
Proof.
  exact (proj1 (requestCreateChatCompletion_no_choices
                  (NewShaper scriptedClient 1 false true) (lit "p")
                  [Ok (completionOf [])] [] eq_refl eq_refl eq_refl)).
Defined.

Lemma ShapeText_direct_mode_witness :
  exists sr,
    ShapeText (NewShaper scriptedClient 1 true false) (lit "```\nP\n```") []
      ([Ok (completionOf [(lit "```\nHELLO\n```", lit "stop")])], [])
    = (Ok sr, ([], [CallMake (lit "```\nP\n```")
                      (fst (scriptedMake (lit "```\nP\n```") []));
                    CallRequest (fst (scriptedMake (lit "```\nP\n```") []))]))
    /\ Prompt sr = lit "```\nP\n```"
    /\ Ok (lit "```\nHELLO\n```") = Ok (RawResult sr)
    /\ Result sr = lit "```\nHELLO\n```\n".
Proof.
  destruct (ShapeText_direct_mode (NewShaper scriptedClient 1 true false)
              (lit "```\nP\n```")
              [Ok (completionOf [(lit "```\nHELLO\n```", lit "stop")])] []
              eq_refl eq_refl eq_refl) as (sr & H1 & H2 & H3 & H4).
  exists sr. split; [exact H1|]. split; [exact H2|]. split; [exact H3|].
  rewrite H4. injection H3 as <-. reflexivity.
Defined.

Lemma ShapeText_Result_terminated_witness :
  HasSuffix (lit "hi\n\n") (lit "\n") = true
  /\ exists computed,
       computed = lit "hi\n\n"
       /\ lit "hi\n\n"
          = (if HasSuffix computed (lit "\n") then computed
             else computed ++ lit "\n")
       /\ trailing_LF (lit "hi\n\n") = Nat.max 1 (trailing_LF computed).
Proof.
  exact (ShapeText_Result_terminated (NewShaper scriptedClient 5 false false)
           (lit "say hi") []
           ([Ok (completionOf [(lit "hi\n\n", lit "stop")])], []) eq_refl).
Defined.

(** C1, as stated, fails: a completion that ends with two line terminators
    comes back, in direct mode, as a Result that ends with both. *)
Lemma ShapeText_Result_not_exactly_one :
  exists sr st',
    ShapeText (NewShaper scriptedClient 5 false false) (lit "say hi") []
      ([Ok (completionOf [(lit "hi\n\n", lit "stop")])], [])
    = (Ok sr, st')
    /\ Result sr = lit "hi\n\n"
    /\ ~ ends_with_exactly_one_LF (Result sr).
Proof.
  eexists. eexists. split; [reflexivity|]. split; [reflexivity|].
  unfold ends_with_exactly_one_LF. simpl. discriminate.
Qed.

(** * The transport: classification of the outcome by status code *)

Section TransportFacts.
Import OpenAI.
Variable W : Type.
Variable Context : Type.
Variable json_Marshal : CreateChatCompletion -> libresult gostring.
Variable http_NewRequestWithContext :
  Context -> gostring -> gostring -> gostring -> libresult HttpRequest.
Variable client_Do : HttpRequest -> W -> libresult HttpResponse * W.
Variable json_Unmarshal_ErrorResponse : gostring -> libresult ErrorResponse.
Variable json_Unmarshal_ChatCompletion : gostring -> libresult ChatCompletion.

Local Abbreviation send :=
  (sendChatCompletionsRequest json_Marshal http_NewRequestWithContext client_Do).
Local Abbreviation request :=
  (RequestCreateChatCompletion json_Marshal http_NewRequestWithContext
     client_Do json_Unmarshal_ErrorResponse json_Unmarshal_ChatCompletion).

Lemma occurs_in_middle (a b c : gostring) : occurs_in b (a ++ b ++ c).
Proof. now exists a, c. Qed.

(** C3. The outcome of a response that was received and read is decided
    by its status code.  Above 299, a body that decodes gives an error
    that wraps ErrUnexpectedStatusCode and whose text carries the code
    and the decoded message (400 and a body saying "bad request" give
    "unexpected status code: 400 'bad request'"); a body that does not
    decode gives another error, which does not wrap
    ErrUnexpectedStatusCode.  Up to 299, a body that does not decode as a
    completion gives an error that is neither of the two. *)
Theorem RequestCreateChatCompletion_status_code
    (c : ChatClient) (ctx : Context) (ccc : CreateChatCompletion)
    (w w' : W) (resp : HttpResponse) (respBody : gostring) :
  send c ctx ccc w = (Ok resp, w') ->
  ReadAll_Body resp = inr respBody ->
  ((299 < StatusCode resp)%Z ->
     (forall errorResponse,
        json_Unmarshal_ErrorResponse respBody = inr errorResponse ->
        exists e,
          request c ctx ccc w = (Err e, w')
          /\ Is_ErrUnexpectedStatusCode e = true
          /\ Error e
             = lit "unexpected status code: " ++ format_d (StatusCode resp)
               ++ lit " '" ++ ErrMessage (ErrorField errorResponse) ++ lit "'"
          /\ occurs_in (format_d (StatusCode resp)) (Error e)
          /\ occurs_in (ErrMessage (ErrorField errorResponse)) (Error e)
          /\ (StatusCode resp = 400%Z ->
              ErrMessage (ErrorField errorResponse) = lit "bad request" ->
              Error e = lit "unexpected status code: 400 'bad request'"))
     /\ (forall err,
           json_Unmarshal_ErrorResponse respBody = inl err ->
           exists e,
             request c ctx ccc w = (Err e, w')
             /\ e = Errorf_w (lit "failed to unmarshal error response: ")
                      (LibraryError err) []
             /\ Is_ErrUnexpectedStatusCode e = false))
  /\ ((StatusCode resp <= 299)%Z ->
      forall err,
        json_Unmarshal_ChatCompletion respBody = inl err ->
        exists e,
          request c ctx ccc w = (Err e, w')
          /\ e = Errorf_w (lit "failed to unmarshal response body: ")
                   (LibraryError err) []
          /\ Is_ErrUnexpectedStatusCode e = false
          /\ e <> Errorf_w (lit "failed to unmarshal error response: ")
                    (LibraryError err) []).
Proof.
  intros Hsend Hread.
  assert (Heq : request c ctx ccc w
    = if (299 <? StatusCode resp)%Z then
        match json_Unmarshal_ErrorResponse respBody with
        | inl err =>
            (Err (Errorf_w (lit "failed to unmarshal error response: ")
                           (LibraryError err) []), w')
        | inr errorResponse =>
            (Err (Errorf_w [] ErrUnexpectedStatusCode
                    (lit ": " ++ format_d (StatusCode resp) ++ lit " '"
                     ++ ErrMessage (ErrorField errorResponse) ++ lit "'")),
             w')
        end
      else (makeChatCompletions json_Unmarshal_ChatCompletion c respBody, w')).
  { unfold RequestCreateChatCompletion.
    rewrite Hsend. unfold Ok. cbv iota beta. now rewrite Hread. }
  rewrite Heq. clear Heq. split.
  - intros Hcode. apply Z.ltb_lt in Hcode. rewrite Hcode. split.
    + intros errorResponse ->. eexists. split; [reflexivity|].
      split; [reflexivity|].
      assert (Htext :
        Error (Errorf_w [] ErrUnexpectedStatusCode
                 (lit ": " ++ format_d (StatusCode resp) ++ lit " '"
                  ++ ErrMessage (ErrorField errorResponse) ++ lit "'"))
        = lit "unexpected status code: " ++ format_d (StatusCode resp)
          ++ lit " '" ++ ErrMessage (ErrorField errorResponse) ++ lit "'").
      { reflexivity. }
      split; [exact Htext|]. rewrite Htext.
      split; [apply occurs_in_middle|]. split.
      * exists (lit "unexpected status code: " ++ format_d (StatusCode resp)
                ++ lit " '"), (lit "'").
        now rewrite <- !app_assoc.
      * intros -> ->. reflexivity.
    + intros err ->. eexists. split; [reflexivity|]. now split.
  - intros Hcode. apply Z.ltb_ge in Hcode. rewrite Hcode.
    intros err Herr. unfold makeChatCompletions. rewrite Herr.
    eexists. split; [reflexivity|]. split; [reflexivity|].
    split; [reflexivity|]. discriminate.
Qed.

End TransportFacts.

Lemma RequestCreateChatCompletion_status_code_witness :
  exists e,
    OpenAI.cannedRequest (OpenAI.New (lit "key") (lit "gpt-4o") [] None)
      (fst (scriptedMake (lit "p") []))
      {| OpenAI.StatusCode := 400;
         OpenAI.ReadAll_Body := inr OpenAI.badRequestBody |}
    = (Err e, {| OpenAI.StatusCode := 400;
                 OpenAI.ReadAll_Body := inr OpenAI.badRequestBody |})
    /\ Is_ErrUnexpectedStatusCode e = true
    /\ Error e = lit "unexpected status code: 400 'bad request'".
Proof.
  destruct (proj1 (RequestCreateChatCompletion_status_code
              OpenAI.cannedMarshal OpenAI.cannedNewRequest OpenAI.cannedDo
              OpenAI.decodeErrorBody OpenAI.noCompletionDecoder
              (OpenAI.New (lit "key") (lit "gpt-4o") [] None) tt
              (fst (scriptedMake (lit "p") []))
              {| OpenAI.StatusCode := 400;
                 OpenAI.ReadAll_Body := inr OpenAI.badRequestBody |}
              eq_refl eq_refl) eq_refl) as [H _].
  destruct (H _ eq_refl) as (e & H1 & H2 & H3 & _ & _ & H6).
  exists e. split; [exact H1|]. split; [exact H2|].
  apply H6; reflexivity.
Defined.

(** * The code block pattern *)

Section PatternFacts.

Lemma lazy_star_sound (R : Type) (class : ascii -> bool)
    (k : gostring -> gostring -> option R) (s acc : gostring) (r : R) :
  lazy_star class k acc s = Some r ->
  exists taken rest,
    s = taken ++ rest /\ forallb class taken = true
    /\ k (acc ++ taken) rest = Some r.
Proof.
  revert acc; induction s as [|c s IH]; intros acc; simpl.
  - destruct (k acc []) eqn:Hk; [|discriminate].
    intros [= ->]. exists [], []. simpl. rewrite app_nil_r. now repeat split.
  - destruct (k acc (c :: s)) eqn:Hk.
    + intros [= ->]. exists [], (c :: s). simpl. rewrite app_nil_r.
      now repeat split.
    + destruct (class c) eqn:Hc; [|discriminate].
      intros H. destruct (IH _ H) as (taken & rest & -> & Hall & Hrest).
      exists (c :: taken), rest. simpl. rewrite Hc, Hall.
      now rewrite <- app_assoc in Hrest.
Qed.

(** The matcher on the pipeline's pattern, with the continuations written
    out. *)
Lemma match_here_codeBlockPattern (s : gostring) :
  match_here codeBlockPattern s
  = match CutPrefix s (lit "```") with
    | None => None
    | Some s0 =>
        lazy_star alnum (fun tag s1 =>
          match CutPrefix s1 (lit "\n") with
          | None => None
          | Some s2 =>
              lazy_star any (fun body s3 =>
                match CutPrefix s3 (lit "\n") with
                | None => None
                | Some s4 =>
                    match CutPrefix s4 (lit "```") with
                    | None => None
                    | Some _ =>
                        Some (lit "```" ++ tag ++ lit "\n"
                                ++ (body ++ lit "\n") ++ lit "```",
                              body ++ lit "\n")
                    end
                end) [] s2
          end) [] s0
    end.
Proof. reflexivity. Qed.

(** What a match at the start of [s] looks like. *)
Lemma match_here_sound (s m0 m1 : gostring) :
  match_here codeBlockPattern s = Some (m0, m1) ->
  exists tag body rest,
    s = lit "```" ++ tag ++ LF :: body ++ LF :: lit "```" ++ rest
    /\ forallb alnum tag = true
    /\ m1 = body ++ [LF]
    /\ m0 = lit "```" ++ tag ++ LF :: body ++ LF :: lit "```".
Proof.
  rewrite match_here_codeBlockPattern.
  destruct (CutPrefix s (lit "```")) as [s0|] eqn:H0; [|discriminate].
  apply CutPrefix_iff in H0. intros H.
  apply lazy_star_sound in H. destruct H as (tag & s1 & -> & Htag & H).
  destruct (CutPrefix s1 (lit "\n")) as [s2|] eqn:H1; [|discriminate].
  apply CutPrefix_iff in H1.
  apply lazy_star_sound in H. destruct H as (body & s3 & -> & _ & H).
  destruct (CutPrefix s3 (lit "\n")) as [s4|] eqn:H3; [|discriminate].
  apply CutPrefix_iff in H3.
  destruct (CutPrefix s4 (lit "```")) as [s5|] eqn:H4; [|discriminate].
  apply CutPrefix_iff in H4. injection H as <- <-.
  exists tag, body, s5. subst. simpl.
  rewrite <- !app_assoc. repeat split; trivial.
Qed.

Lemma FindStringSubmatch_sound (r : regex) (text : gostring) m :
  FindStringSubmatch r text = Some m ->
  exists before s, text = before ++ s /\ match_here r s = Some m.
Proof.
  induction text as [|c text IH]; simpl.
  - destruct (match_here r []) eqn:H; [|discriminate].
    intros [= ->]. now exists [], [].
  - destruct (match_here r (c :: text)) eqn:H.
    + intros [= ->]. now exists [], (c :: text).
    + intros H'. destruct (IH H') as (before & s & -> & Hs).
      now exists (c :: before), s.
Qed.

(** The shape of a text in which the pattern is found. *)
Lemma FindStringSubmatch_codeBlock (text m0 m1 : gostring) :
  FindStringSubmatch codeBlockPattern text = Some (m0, m1) ->
  exists before tag body rest,
    text = before ++ lit "```" ++ tag ++ LF :: body ++ LF :: lit "```" ++ rest
    /\ forallb alnum tag = true
    /\ m1 = body ++ [LF]
    /\ m0 = lit "```" ++ tag ++ LF :: body ++ LF :: lit "```".
Proof.
  intros H. apply FindStringSubmatch_sound in H.
  destruct H as (before & s & -> & H). apply match_here_sound in H.
  destruct H as (tag & body & rest & -> & H). now exists before, tag, body, rest.
Qed.

(** No match starts at a character that is not a backtick. *)
Lemma match_here_not_backtick (c : ascii) (s : gostring) :
  c <> "`"%char -> match_here codeBlockPattern (c :: s) = None.
Proof.
  intros Hc. rewrite match_here_codeBlockPattern. simpl.
  apply Ascii.eqb_neq in Hc. now rewrite Hc.
Qed.

Lemma FindStringSubmatch_skip (before s : gostring) :
  (forall c, In c before -> c <> "`"%char) ->
  FindStringSubmatch codeBlockPattern (before ++ s)
  = FindStringSubmatch codeBlockPattern s.
Proof.
  induction before as [|c before IH]; intros H; [reflexivity|].
  change ((c :: before) ++ s) with (c :: (before ++ s)).
  cbn [FindStringSubmatch]. rewrite match_here_not_backtick.
  - apply IH. intros d Hd. apply H. now right.
  - apply H. now left.
Qed.

Lemma FindStringSubmatch_no_backtick (text : gostring) :
  (forall c, In c text -> c <> "`"%char) ->
  FindStringSubmatch codeBlockPattern text = None.
Proof.
  intros H. rewrite <- (app_nil_r text), FindStringSubmatch_skip by exact H.
  reflexivity.
Qed.

End PatternFacts.

(** * Lines: Split and Join *)

Section LineFacts.
Variable sep : ascii.

Local Abbreviation count s := (count_occ ascii_dec s sep).

Lemma Split_not_nil (s : gostring) : Split s sep <> [].
Proof.
  destruct s as [|c s]; simpl; [discriminate|].
  destruct (Ascii.eqb c sep); [discriminate|].
  destruct (Split s sep); discriminate.
Qed.

Lemma Split_length (s : gostring) : length (Split s sep) = S (count s).
Proof.
  induction s as [|c s IH]; [reflexivity|]. simpl.
  destruct (Ascii.eqb_spec c sep) as [->|Hne].
  - destruct (ascii_dec sep sep); [|congruence]. simpl. now rewrite IH.
  - destruct (ascii_dec c sep); [congruence|].
    destruct (Split s sep) as [|l ls] eqn:Hs; [now apply Split_not_nil in Hs|].
    exact IH.
Qed.

Lemma Split_no_sep (a : gostring) : ~ In sep a -> Split a sep = [a].
Proof.
  induction a as [|c a IH]; intros H; [reflexivity|]. simpl.
  destruct (Ascii.eqb_spec c sep) as [->|Hne]; [exfalso; apply H; now left|].
  rewrite IH; [reflexivity|]. intros Hin. apply H. now right.
Qed.

Lemma Split_app (a b : gostring) :
  ~ In sep a -> Split (a ++ sep :: b) sep = a :: Split b sep.
Proof.
  induction a as [|c a IH]; intros H; simpl.
  - now rewrite Ascii.eqb_refl.
  - destruct (Ascii.eqb_spec c sep) as [->|Hne]; [exfalso; apply H; now left|].
    rewrite IH; [reflexivity|]. intros Hin. apply H. now right.
Qed.

Lemma Split_snoc (a b : gostring) :
  ~ In sep b -> Split (a ++ sep :: b) sep = Split a sep ++ [b].
Proof.
  intros Hb. induction a as [|c a IH]; simpl.
  - now rewrite Ascii.eqb_refl, Split_no_sep.
  - rewrite IH. destruct (Ascii.eqb c sep); [reflexivity|].
    destruct (Split a sep) as [|l ls] eqn:Hs; [now apply Split_not_nil in Hs|].
    reflexivity.
Qed.

Lemma Join_Split (s : gostring) : Join (Split s sep) [sep] = s.
Proof.
  induction s as [|c s IH]; [reflexivity|]. simpl.
  destruct (Split s sep) as [|l ls] eqn:Hs; [now apply Split_not_nil in Hs|].
  destruct (Ascii.eqb_spec c sep) as [->|Hne].
  - simpl in *. now rewrite IH.
  - simpl in *. destruct ls; rewrite <- IH; reflexivity.
Qed.

Lemma cut_at_first (s : gostring) :
  In sep s -> exists a b, s = a ++ sep :: b /\ ~ In sep a.
Proof.
  induction s as [|c s IH]; [easy|]. intros H.
  destruct (ascii_dec c sep) as [->|Hne].
  - exists [], s. now split.
  - destruct H as [H|H]; [congruence|].
    destruct (IH H) as (a & b & -> & Ha).
    exists (c :: a), b. split; [reflexivity|].
    intros [Heq|Hin]; [congruence | now apply Ha].
Qed.

Lemma cut_at_last (s : gostring) :
  In sep s -> exists a b, s = a ++ sep :: b /\ ~ In sep b.
Proof.
  intros H. apply in_rev in H. apply cut_at_first in H.
  destruct H as (a & b & H & Ha).
  exists (rev b), (rev a). split.
  - rewrite <- (rev_involutive s), H, rev_app_distr. simpl.
    now rewrite <- app_assoc.
  - now rewrite <- in_rev.
Qed.

Lemma count_positive_In (s : gostring) : 0 < count s -> In sep s.
Proof. apply count_occ_In. Qed.

(** The lines between the first and the last line, joined again. *)
Lemma Split_first_mid_last (first mid last : gostring) :
  ~ In sep first -> ~ In sep last ->
  let lines := Split (first ++ sep :: mid ++ sep :: last) sep in
  2 < length lines
  /\ Join (slice lines 1 (length lines - 1)) [sep] = mid.
Proof.
  intros Hfirst Hlast lines. subst lines.
  rewrite Split_app, Split_snoc by assumption.
  unfold slice. cbn [length skipn]. rewrite length_app. cbn [length].
  pose proof (Split_length mid) as Hmid. split; [lia|].
  replace (S (length (Split mid sep) + 1) - 1 - 1)
    with (length (Split mid sep) + 0) by lia.
  rewrite firstn_app_2, app_nil_r. simpl. apply Join_Split.
Qed.

(** A text of more than two lines is a first line, a middle and a last
    line. *)
Lemma Split_more_than_two (s : gostring) :
  2 < length (Split s sep) ->
  exists first mid last,
    s = first ++ sep :: mid ++ sep :: last
    /\ ~ In sep first /\ ~ In sep last.
Proof.
  intros Hlen. rewrite Split_length in Hlen.
  destruct (cut_at_first s) as (first & s1 & -> & Hfirst);
    [apply count_positive_In; lia|].
  rewrite count_occ_app, count_occ_cons_eq in Hlen by reflexivity.
  rewrite (count_occ_not_In ascii_dec) in Hfirst. rewrite Hfirst in Hlen.
  destruct (cut_at_last s1) as (mid & last & -> & Hlast);
    [apply count_positive_In; lia|].
  exists first, mid, last.
  rewrite <- (count_occ_not_In ascii_dec) in Hfirst. now repeat split.
Qed.

Lemma HasPrefix_before_sep (a r p : gostring) :
  ~ In sep p -> HasPrefix (a ++ sep :: r) p = true -> HasPrefix a p = true.
Proof.
  revert a; induction p as [|x p IH]; intros a Hp; [reflexivity|].
  destruct a as [|c a]; simpl.
  - rewrite andb_true_iff, Ascii.eqb_eq. intros [-> _].
    exfalso; apply Hp; now left.
  - rewrite !andb_true_iff. intros [Hc H]. split; [exact Hc|].
    apply IH; [|exact H]. intros Hin; apply Hp; now right.
Qed.

Lemma HasSuffix_rev (s suffix : gostring) :
  HasSuffix s suffix = HasPrefix (rev s) (rev suffix).
Proof.
  apply eq_true_iff_eq. rewrite HasSuffix_iff, HasPrefix_iff. split.
  - intros [r ->]. rewrite rev_app_distr. now exists (rev r).
  - intros [r H]. exists (rev r).
    rewrite <- (rev_involutive s), H, rev_app_distr.
    now rewrite rev_involutive.
Qed.

Lemma HasSuffix_after_sep (a r p : gostring) :
  ~ In sep p -> HasSuffix (r ++ sep :: a) p = true -> HasSuffix a p = true.
Proof.
  intros Hp. rewrite !HasSuffix_rev, rev_app_distr. simpl.
  rewrite <- app_assoc. simpl. apply HasPrefix_before_sep.
  now rewrite <- in_rev.
Qed.

End LineFacts.

(** * The response optimizer *)

Section OptimizerFacts.

Lemma backticks_no_LF : ~ In LF (lit "```").
Proof. simpl. intros [H|[H|[H|[]]]]; discriminate. Qed.

(** The optimizer in two steps: the fence-stripping step gives the working
    result, and the search for a code block replaces it by the interior of
    the first block when there is one. *)
Lemma optimizeResponseResult_steps (rawResult : gostring) (useFirstCodeBlock : bool) :
  optimizeResponseResult rawResult useFirstCodeBlock
  = let result :=
      if HasPrefix rawResult (lit "```") && HasSuffix rawResult (lit "```") then
        if 2 <? length (Split rawResult LF)
        then Join (slice (Split rawResult LF) 1
                     (length (Split rawResult LF) - 1)) (lit "\n")
        else rawResult
      else rawResult in
    if useFirstCodeBlock then
      match FindStringSubmatch codeBlockPattern result with
      | Some (_, m1) => Ok m1
      | None => Ok result
      end
    else Ok result.
Proof.
  unfold optimizeResponseResult. cbv zeta.
  destruct useFirstCodeBlock; [|reflexivity].
  match goal with |- context [findMarkdownFirstCodeBlock ?r] => generalize r end.
  intros result. unfold findMarkdownFirstCodeBlock. simpl.
  destruct (FindStringSubmatch codeBlockPattern result) as [[m0 m1]|] eqn:H;
    [|reflexivity].
  apply FindStringSubmatch_codeBlock in H.
  destruct H as (_ & _ & body & _ & _ & _ & -> & _).
  destruct body; reflexivity.
Qed.

Lemma FindStringSubmatch_two_LF (text : gostring) m :
  FindStringSubmatch codeBlockPattern text = Some m ->
  2 <= count_occ ascii_dec text LF.
Proof.
  destruct m as [m0 m1]. intros H. apply FindStringSubmatch_codeBlock in H.
  destruct H as (before & tag & body & rest & -> & _).
  rewrite !count_occ_app, count_occ_cons_eq by reflexivity.
  rewrite count_occ_app, count_occ_cons_eq by reflexivity. lia.
Qed.

Lemma FindStringSubmatch_few_lines (text : gostring) :
  length (Split text LF) <= 2 ->
  FindStringSubmatch codeBlockPattern text = None.
Proof.
  rewrite Split_length. intros Hlen.
  destruct (FindStringSubmatch codeBlockPattern text) eqn:H; [|reflexivity].
  apply FindStringSubmatch_two_LF in H. lia.
Qed.

Lemma alnum_not_LF (tag : gostring) : forallb alnum tag = true -> ~ In LF tag.
Proof.
  rewrite forallb_forall. intros H Hin. apply H in Hin. discriminate.
Qed.

(** A text is cut at its first line break in one way only. *)
Lemma first_LF_unique (a a' b b' : gostring) :
  ~ In LF a -> ~ In LF a' -> a ++ LF :: b = a' ++ LF :: b' -> a = a' /\ b = b'.
Proof.
  revert a'; induction a as [|c a IH]; intros [|c' a'] Ha Ha'; simpl.
  - now intros [= ->].
  - intros [= <- _]. exfalso; apply Ha'; now left.
  - intros [= -> _]. exfalso; apply Ha; now left.
  - intros [= -> H]. destruct (IH a') as [-> ->]; trivial.
    + intros Hin; apply Ha; now right.
    + intros Hin; apply Ha'; now right.
    + now split.
Qed.

(** A closing fence after a body needs a backtick past the opening one. *)
Lemma body_in_fence (body rest after : gostring) :
  lit "```" ++ after = body ++ LF :: lit "```" ++ rest -> In "`"%char after.
Proof.
  destruct body as [|c1 [|c2 [|c3 body]]]; simpl; try discriminate.
  intros [= _ _ _ ->]. rewrite in_app_iff. right. right. now left.
Qed.

(** An opening fence whose line is directly followed by the only other
    fence starts no match. *)
Lemma match_here_empty_body (tag after : gostring) :
  ~ In LF tag -> ~ In "`"%char after ->
  match_here codeBlockPattern (lit "```" ++ tag ++ LF :: lit "```" ++ after) = None.
Proof.
  intros Htag Hafter.
  destruct (match_here _ _) as [[m0 m1]|] eqn:H; [|reflexivity].
  apply match_here_sound in H.
  destruct H as (tag2 & body & rest & Heq & Htag2 & _).
  apply app_inv_head in Heq. apply alnum_not_LF in Htag2.
  apply first_LF_unique in Heq; trivial. destruct Heq as [_ Heq].
  apply body_in_fence in Heq. contradiction.
Qed.

(** A last fence, with no backtick after it, starts no match. *)
Lemma match_here_last_fence (after : gostring) :
  ~ In "`"%char after -> match_here codeBlockPattern (lit "```" ++ after) = None.
Proof.
  intros Hafter.
  destruct (match_here _ _) as [[m0 m1]|] eqn:H; [|reflexivity].
  apply match_here_sound in H.
  destruct H as (tag2 & body & rest & Heq & _).
  apply app_inv_head in Heq. exfalso; apply Hafter. rewrite Heq.
  rewrite in_app_iff. right. right. rewrite in_app_iff. right. right. now left.
Qed.

(** After a fence that starts no match, the search goes on behind it. *)
Lemma FindStringSubmatch_past_fence (t : gostring) :
  match_here codeBlockPattern (lit "```" ++ t) = None ->
  HasPrefix t (lit "`") = false ->
  FindStringSubmatch codeBlockPattern (lit "```" ++ t)
  = FindStringSubmatch codeBlockPattern t.
Proof.
  intros Hhere Ht. change (lit "```" ++ t) with ("`"%char :: "`"%char :: "`"%char :: t) in *.
  cbn [FindStringSubmatch]. rewrite Hhere.
  assert (H2 : match_here codeBlockPattern ("`"%char :: "`"%char :: t) = None).
  { rewrite match_here_codeBlockPattern.
    destruct t as [|c t]; [reflexivity|]. simpl in Ht |- *.
    rewrite andb_true_r in Ht. now rewrite Ht. }
  assert (H1 : match_here codeBlockPattern ("`"%char :: t) = None).
  { rewrite match_here_codeBlockPattern.
    destruct t as [|c t]; [reflexivity|]. simpl in Ht |- *.
    rewrite andb_true_r in Ht. now rewrite Ht. }
  now rewrite H2, H1.
Qed.

Lemma head_not_backtick (t : gostring) :
  ~ In "`"%char t -> HasPrefix t (lit "`") = false.
Proof.
  destruct t as [|c t]; [reflexivity|]. intros H. simpl.
  rewrite andb_true_r. apply Ascii.eqb_neq. intros ->. apply H. now left.
Qed.

(** A text whose only fences are those of a block with an empty body holds
    no match. *)
Lemma FindStringSubmatch_empty_body (before tag after : gostring) :
  ~ In "`"%char before -> ~ In "`"%char tag -> ~ In LF tag ->
  ~ In "`"%char after ->
  FindStringSubmatch codeBlockPattern
    (before ++ lit "```" ++ tag ++ LF :: lit "```" ++ after) = None.
Proof.
  intros Hbefore Htag HtagLF Hafter.
  rewrite FindStringSubmatch_skip by (intros c Hc ->; contradiction).
  rewrite FindStringSubmatch_past_fence.
  - replace (tag ++ LF :: lit "```" ++ after)
      with ((tag ++ [LF]) ++ lit "```" ++ after) by (now rewrite <- app_assoc).
    rewrite FindStringSubmatch_skip.
    + rewrite FindStringSubmatch_past_fence.
      * apply FindStringSubmatch_no_backtick. intros c Hc ->. contradiction.
      * now apply match_here_last_fence.
      * now apply head_not_backtick.
    + intros c Hc ->. apply in_app_iff in Hc. destruct Hc as [Hc|[Hc|[]]];
        [contradiction | discriminate].
  - now apply match_here_empty_body.
  - destruct tag as [|c tag]; [reflexivity|]. simpl. rewrite andb_true_r.
    apply Ascii.eqb_neq. intros ->. apply Htag. now left.
Qed.

Lemma HasSuffix_last_not_backtick (x after : gostring) :
  after <> [] -> ~ In "`"%char after ->
  HasSuffix (x ++ after) (lit "```") = false.
Proof.
  intros Hne Hafter. rewrite HasSuffix_rev, rev_app_distr.
  destruct (rev after) as [|c r] eqn:Hr.
  - apply (f_equal (@rev ascii)) in Hr. rewrite rev_involutive in Hr.
    now subst.
  - assert (Hc : c <> "`"%char).
    { intros ->. apply Hafter. apply in_rev. rewrite Hr. now left. }
    simpl. apply Ascii.eqb_neq in Hc. now rewrite Hc.
Qed.

(** When the fence-stripping step leaves the text alone and the pattern is
    not found in it, the text comes back unchanged. *)
Lemma optimizeResponseResult_nothing_found (raw : gostring) :
  FindStringSubmatch codeBlockPattern raw = None ->
  HasPrefix raw (lit "```") && HasSuffix raw (lit "```")
  && (2 <? length (Split raw LF)) = false ->
  optimizeResponseResult raw true = Ok raw.
Proof.
  intros Hfind Hguard. rewrite optimizeResponseResult_steps.
  destruct (HasPrefix raw (lit "```") && HasSuffix raw (lit "```")).
  - simpl in Hguard. rewrite Hguard. cbv zeta. now rewrite Hfind.
  - cbv zeta. now rewrite Hfind.
Qed.

(** C4 (amended). With useFirstCodeBlock set, a raw text that holds the
    block "```js\nA\n```" and later the block "```py\nB\n```", with no
    backtick before the first one, and that does not both start and end
    with "```", gives "A\n": the interior of the first block with the line
    break before its closing fence.  A raw text in which the pattern finds
    nothing and that the fence-stripping step leaves alone is returned
    unchanged; so is, whatever the flag, every text without a backtick. *)
Theorem optimizeResponseResult_first_code_block :
  (forall before between after : gostring,
     (forall c, In c before -> c <> "`"%char) ->
     let raw := before ++ lit "```js\nA\n```" ++ between
                ++ lit "```py\nB\n```" ++ after in
     HasPrefix raw (lit "```") && HasSuffix raw (lit "```") = false ->
     optimizeResponseResult raw true = Ok (lit "A\n"))
  /\ (forall raw : gostring,
        FindStringSubmatch codeBlockPattern raw = None ->
        HasPrefix raw (lit "```") && HasSuffix raw (lit "```")
        && (2 <? length (Split raw LF)) = false ->
        optimizeResponseResult raw true = Ok raw)
  /\ (forall (raw : gostring) (b : bool),
        (forall c, In c raw -> c <> "`"%char) ->
        optimizeResponseResult raw b = Ok raw).
Proof.
  split; [|split].
  - intros before between after Hbefore raw Hguard.
    rewrite optimizeResponseResult_steps. fold raw. rewrite Hguard. cbv zeta.
    unfold raw. rewrite FindStringSubmatch_skip by exact Hbefore.
    reflexivity.
  - exact optimizeResponseResult_nothing_found.
  - intros raw b Hraw. rewrite optimizeResponseResult_steps.
    assert (Hp : HasPrefix raw (lit "```") = false).
    { destruct raw as [|c raw]; [reflexivity|]. simpl.
      assert (Hc : c <> "`"%char) by (apply Hraw; now left).
      apply Ascii.eqb_neq in Hc. now rewrite Hc. }
    rewrite Hp. cbv zeta. simpl andb. cbv iota.
    rewrite (FindStringSubmatch_no_backtick raw Hraw).
    destruct b; reflexivity.
Qed.

Lemma optimizeResponseResult_first_code_block_witness :
  optimizeResponseResult (lit "x\n```js\nA\n```\n```py\nB\n```\n") true
  = Ok (lit "A\n")
  /\ optimizeResponseResult (lit "no fence here") true = Ok (lit "no fence here").
Proof.
  split.
  - apply (proj1 optimizeResponseResult_first_code_block
             (lit "x\n") (lit "\n") (lit "\n")).
    + simpl. intros c [<-|[<-|[]]]; discriminate.
    + reflexivity.
  - apply (proj1 (proj2 optimizeResponseResult_first_code_block)
             (lit "no fence here")); reflexivity.
Defined.

(** C4, as stated, fails: the interior that comes back keeps the line
    break before the closing fence; a text that is the two blocks and
    nothing else loses its first and last line before the search; and a
    text in which the pattern finds no block can still be changed by the
    fence-stripping step. *)
Lemma optimizeResponseResult_first_code_block_not_A :
  optimizeResponseResult (lit "x\n```js\nA\n```\n```py\nB\n```\n") true
  <> Ok (lit "A")
  /\ optimizeResponseResult (lit "```js\nA\n```\n```py\nB\n```") true
     = Ok (lit "A\n```\n```py\nB")
  /\ FindStringSubmatch codeBlockPattern (lit "```a b\nX\n```") = None
  /\ optimizeResponseResult (lit "```a b\nX\n```") true = Ok (lit "X").
Proof.
  split; [|split; [|split]]; try reflexivity.
  intros H. vm_compute in H. discriminate.
Qed.

(** C5. The enclosing fence is stripped only when the text has more than
    two lines: "```\nHELLO\n```" becomes "HELLO", and a text that starts
    and ends with "```" but splits into at most two lines, such as
    "``````", is returned as it is. *)
Theorem optimizeResponseResult_two_line_guard :
  (forall b, optimizeResponseResult (lit "```\nHELLO\n```") b = Ok (lit "HELLO"))
  /\ (forall (raw : gostring) (b : bool),
        HasPrefix raw (lit "```") = true ->
        HasSuffix raw (lit "```") = true ->
        length (Split raw LF) <= 2 ->
        optimizeResponseResult raw b = Ok raw)
  /\ (forall b, optimizeResponseResult (lit "``````") b = Ok (lit "``````")).
Proof.
  split; [|split].
  - intros []; reflexivity.
  - intros raw b Hp Hs Hlen. rewrite optimizeResponseResult_steps.
    rewrite Hp, Hs. simpl andb. cbv iota.
    assert (Hguard : (2 <? length (Split raw LF)) = false)
      by (apply Nat.ltb_ge; exact Hlen).
    rewrite Hguard. cbv zeta.
    rewrite (FindStringSubmatch_few_lines raw Hlen). destruct b; reflexivity.
  - intros []; reflexivity.
Qed.

Lemma optimizeResponseResult_two_line_guard_witness :
  optimizeResponseResult (lit "```js\nB```") true = Ok (lit "```js\nB```").
Proof.
  apply (proj1 (proj2 optimizeResponseResult_two_line_guard)
           (lit "```js\nB```") true); [reflexivity | reflexivity | simpl; lia].
Defined.

(** C9. Whenever the pattern is found, the interior that
    [findMarkdownFirstCodeBlock] returns is not empty and ends with "\n",
    and the text matched is never a block with an empty body (an opening
    fence line directly followed by the closing fence).  In a text whose
    only backticks are the two fences of such a block nothing is found, and
    the optimizer returns the text unchanged. *)
Theorem findMarkdownFirstCodeBlock_interior :
  (forall text m0 m1 : gostring,
     FindStringSubmatch codeBlockPattern text = Some (m0, m1) ->
     findMarkdownFirstCodeBlock text = Ok m1
     /\ m1 <> []
     /\ HasSuffix m1 (lit "\n") = true
     /\ forall tag, ~ In LF tag -> m0 <> lit "```" ++ tag ++ lit "\n```")
  /\ (forall before tag after : gostring,
        ~ In "`"%char before -> ~ In "`"%char tag -> ~ In LF tag ->
        ~ In "`"%char after ->
        let text := before ++ lit "```" ++ tag ++ lit "\n```" ++ after in
        FindStringSubmatch codeBlockPattern text = None
        /\ findMarkdownFirstCodeBlock text = Ok []
        /\ optimizeResponseResult text true = Ok text).
Proof.
  split.
  - intros text m0 m1 H.
    split; [unfold findMarkdownFirstCodeBlock; simpl; now rewrite H|].
    apply FindStringSubmatch_codeBlock in H.
    destruct H as (before & tag & body & rest & _ & _ & -> & ->).
    split; [destruct body; discriminate|].
    split; [apply HasSuffix_app|].
    intros tag' Htag' Heq.
    apply (f_equal (fun s => count_occ ascii_dec s LF)) in Heq.
    rewrite !count_occ_app, count_occ_cons_eq in Heq by reflexivity.
    rewrite count_occ_app, count_occ_cons_eq in Heq by reflexivity.
    change (lit "\n```") with (LF :: lit "```") in Heq.
    rewrite count_occ_cons_eq in Heq by reflexivity.
    apply (count_occ_not_In ascii_dec) in Htag'.
    pose proof backticks_no_LF as Hb.
    apply (count_occ_not_In ascii_dec) in Hb. lia.
  - intros before tag after Hbefore Htag HtagLF Hafter text.
    assert (Hfind : FindStringSubmatch codeBlockPattern text = None)
      by (now apply FindStringSubmatch_empty_body).
    split; [exact Hfind|].
    split; [unfold findMarkdownFirstCodeBlock; simpl; now rewrite Hfind|].
    apply optimizeResponseResult_nothing_found; [exact Hfind|].
    destruct before as [|c before].
    + destruct after as [|d after].
      * assert (Hlen : (2 <? length (Split text LF)) = false).
        { apply Nat.ltb_ge. rewrite Split_length. unfold text.
          change (lit "\n```") with (LF :: lit "```").
          rewrite !count_occ_app, count_occ_cons_eq by reflexivity.
          apply (count_occ_not_In ascii_dec) in HtagLF.
          pose proof backticks_no_LF as Hb.
          apply (count_occ_not_In ascii_dec) in Hb. simpl in *. lia. }
        rewrite Hlen. apply andb_false_r.
      * assert (Hs : HasSuffix text (lit "```") = false).
        { unfold text. rewrite !app_assoc.
          apply HasSuffix_last_not_backtick; [discriminate | exact Hafter]. }
        rewrite Hs. now rewrite andb_false_r.
    + assert (Hp : HasPrefix text (lit "```") = false).
      { unfold text. simpl. apply andb_false_iff. left.
        apply Ascii.eqb_neq. intros ->. apply Hbefore. now left. }
      now rewrite Hp.
Qed.

Lemma findMarkdownFirstCodeBlock_interior_witness :
  (findMarkdownFirstCodeBlock (lit "x\n```js\nA\n```\n") = Ok (lit "A\n")
   /\ lit "A\n" <> []
   /\ HasSuffix (lit "A\n") (lit "\n") = true)
  /\ optimizeResponseResult (lit "see\n```js\n```\nhere") true
     = Ok (lit "see\n```js\n```\nhere").
Proof.
  split.
  - destruct (proj1 findMarkdownFirstCodeBlock_interior
                (lit "x\n```js\nA\n```\n") (lit "```js\nA\n```") (lit "A\n")
                eq_refl) as (H1 & H2 & H3 & _).
    repeat split; assumption.
  - apply (proj2 findMarkdownFirstCodeBlock_interior
             (lit "see\n") (lit "js") (lit "\nhere")); simpl;
      intuition discriminate.
Defined.

(** C10. The fence-stripping step fires on every text that starts with
    "```", ends with "```" and has more than two lines, and then drops the
    whole first line and the whole last line: whatever follows the opening
    backticks on the first line (a language tag) and whatever precedes the
    closing backticks on the last line goes with them, and what is left is
    the text between the first and the last line break. *)
Theorem optimizeResponseResult_strips_whole_lines :
  (forall raw : gostring,
     HasPrefix raw (lit "```") = true ->
     HasSuffix raw (lit "```") = true ->
     2 < length (Split raw LF) ->
     exists first mid last,
       raw = first ++ lit "\n" ++ mid ++ lit "\n" ++ last
       /\ ~ In LF first /\ ~ In LF last
       /\ HasPrefix first (lit "```") = true
       /\ HasSuffix last (lit "```") = true
       /\ optimizeResponseResult raw false = Ok mid
       /\ optimizeResponseResult raw true
          = match FindStringSubmatch codeBlockPattern mid with
            | Some (_, m1) => Ok m1
            | None => Ok mid
            end)
  /\ (forall tag mid content : gostring,
        ~ In LF tag -> ~ In LF content ->
        optimizeResponseResult
          (lit "```" ++ tag ++ lit "\n" ++ mid ++ lit "\n" ++ content ++ lit "```")
          false
        = Ok mid)
  /\ optimizeResponseResult (lit "```js\nA\nB```") false = Ok (lit "A").
Proof.
  assert (Hstrip : forall first mid last b,
    ~ In LF first -> ~ In LF last ->
    HasPrefix (first ++ LF :: mid ++ LF :: last) (lit "```") = true ->
    HasSuffix (first ++ LF :: mid ++ LF :: last) (lit "```") = true ->
    optimizeResponseResult (first ++ LF :: mid ++ LF :: last) b
    = if b then
        match FindStringSubmatch codeBlockPattern mid with
        | Some (_, m1) => Ok m1
        | None => Ok mid
        end
      else Ok mid).
  { intros first mid last b Hfirst Hlast Hp Hs.
    rewrite optimizeResponseResult_steps, Hp, Hs. simpl andb. cbv iota.
    destruct (@Split_first_mid_last LF first mid last Hfirst Hlast)
      as [Hlen Hjoin].
    cbv zeta in Hlen, Hjoin. apply Nat.ltb_lt in Hlen. rewrite Hlen.
    change (lit "\n") with [LF]. rewrite Hjoin. reflexivity. }
  split; [|split].
  - intros raw Hp Hs Hlen.
    destruct (@Split_more_than_two LF raw Hlen) as (first & mid & last & -> & Hf & Hl).
    exists first, mid, last. change (lit "\n") with [LF]. simpl app.
    split; [reflexivity|]. split; [exact Hf|]. split; [exact Hl|].
    split; [apply (@HasPrefix_before_sep LF first _ _ backticks_no_LF Hp)|].
    split.
    { apply (@HasSuffix_after_sep LF last (first ++ LF :: mid) _ backticks_no_LF).
      now rewrite <- app_assoc. }
    split; [apply (Hstrip first mid last false) | apply (Hstrip first mid last true)];
      assumption.
  - intros tag mid content Htag Hcontent. change (lit "\n") with [LF].
    assert (Hfirst : ~ In LF (lit "```" ++ tag)).
    { rewrite in_app_iff. intros [H|H]; [now apply backticks_no_LF | auto]. }
    assert (Hlast : ~ In LF (content ++ lit "```")).
    { rewrite in_app_iff. intros [H|H]; [auto | now apply backticks_no_LF]. }
    replace (lit "```" ++ tag ++ [LF] ++ mid ++ [LF] ++ content ++ lit "```")
      with ((lit "```" ++ tag) ++ LF :: mid ++ LF :: (content ++ lit "```"))
      by (now rewrite <- !app_assoc).
    apply (Hstrip _ mid _ false Hfirst Hlast).
    + rewrite <- app_assoc. apply HasPrefix_app.
    + replace ((lit "```" ++ tag) ++ LF :: mid ++ LF :: content ++ lit "```")
        with (((lit "```" ++ tag) ++ LF :: mid ++ LF :: content) ++ lit "```").
      * apply HasSuffix_app.
      * rewrite <- !app_assoc. simpl. now rewrite <- !app_assoc.
  - reflexivity.
Qed.

Lemma optimizeResponseResult_strips_whole_lines_witness :
  optimizeResponseResult (lit "```js\nA\nB```") false = Ok (lit "A")
  /\ exists first mid last,
       lit "```js\nX\nY\nB```" = first ++ lit "\n" ++ mid ++ lit "\n" ++ last
       /\ optimizeResponseResult (lit "```js\nX\nY\nB```") false = Ok mid.
Proof.
  split.
  - apply (proj1 (proj2 optimizeResponseResult_strips_whole_lines)
             (lit "js") (lit "A") (lit "B")); simpl; intuition discriminate.
  - destruct (proj1 optimizeResponseResult_strips_whole_lines
                (lit "```js\nX\nY\nB```") eq_refl eq_refl)
      as (first & mid & last & H1 & _ & _ & _ & _ & H2 & _).
    + simpl. lia.
    + exists first, mid, last. split; assumption.
Defined.

End OptimizerFacts.

(** * The list of input files *)

Example readInputFiles_run :
  Cmd.readInputFiles
    (Cmd.oneFile (lit "\n  a.txt \n# note\n\n dir/b c.md\n   #x\n"))
    (lit "list.txt")
  = Ok [lit "a.txt"; lit "dir/b c.md"].
Proof. reflexivity. Qed.

Example TrimSpace_unicode :
  Cmd.TrimSpace ([Cmd.byte 194; Cmd.byte 160] ++ lit " x y "
                 ++ [Cmd.byte 227; Cmd.byte 128; Cmd.byte 128] ++ lit "\n")
  = lit "x y".
Proof. reflexivity. Qed.

Example TrimSpace_invalid :
  Cmd.TrimSpace ([Cmd.byte 160] ++ lit " x" ++ [Cmd.byte 194])
  = [Cmd.byte 160] ++ lit " x" ++ [Cmd.byte 194].
Proof. reflexivity. Qed.

(** * The orchestrator in both modes *)

Section ShapeTextFacts.
Variable W : Type.
Implicit Types (s : Shaper W) (w : W) (tr : list Call).

(** The prompt a shaping call sends. *)
Local Abbreviation sentPrompt s promptOrg inputOrg :=
  (if eqb inputOrg [] && negb (promptOptimize s) then promptOrg
   else optimizePrompt promptOrg inputOrg).

Lemma optimizeResponseResult_total (rawResult : gostring) (b : bool) :
  exists result, optimizeResponseResult rawResult b = Ok result.
Proof.
  rewrite optimizeResponseResult_steps. cbv zeta.
  destruct b; [|eauto].
  destruct (FindStringSubmatch codeBlockPattern _) as [[m0 m1]|]; eauto.
Qed.

Lemma ShapeText_eq s promptOrg inputOrg w tr :
  let sent := sentPrompt s promptOrg inputOrg in
  let '(cr, w1) := MakeCreateChatCompletion (gai s) sent w in
  let '(r, w2) := RequestCreateChatCompletion (gai s) cr w1 in
  ShapeText s promptOrg inputOrg (w, tr)
  = (match answerOf r with
     | inl err => Err err
     | inr rawResult =>
         if eqb inputOrg [] && negb (promptOptimize s)
         then Ok (NewShapeResult promptOrg rawResult rawResult)
         else match optimizeResponseResult rawResult (useFirstCodeBlock s) with
              | inl err => Err err
              | inr result => Ok (NewShapeResult sent rawResult result)
              end
     end, (w2, tr ++ [CallMake sent cr; CallRequest cr])).
Proof.
  intros sent.
  pose proof (requestCreateChatCompletion_eq s sent w tr) as H.
  destruct (MakeCreateChatCompletion (gai s) sent w) as [cr w1].
  destruct (RequestCreateChatCompletion (gai s) cr w1) as [r w2].
  unfold ShapeText, bind. subst sent.
  destruct (eqb inputOrg [] && negb (promptOptimize s)); rewrite H.
  - destruct (answerOf r); reflexivity.
  - destruct (answerOf r) as [err|rawResult]; [reflexivity|].
    destruct (optimizeResponseResult rawResult (useFirstCodeBlock s));
      reflexivity.
Qed.

(** X1. One shaping call is one exchange with the client, in both modes
    and whether it succeeds or fails: one request object is made, for the
    original prompt in direct mode and for the optimized prompt otherwise,
    and that object is sent once. *)
Theorem ShapeText_one_exchange s promptOrg inputOrg w tr :
  let sent := sentPrompt s promptOrg inputOrg in
  let '(cr, w1) := MakeCreateChatCompletion (gai s) sent w in
  let '(r, w2) := RequestCreateChatCompletion (gai s) cr w1 in
  snd (ShapeText s promptOrg inputOrg (w, tr))
  = (w2, tr ++ [CallMake sent cr; CallRequest cr]).
Proof.
  intros sent. pose proof (ShapeText_eq s promptOrg inputOrg w tr) as H.
  cbv zeta in H. fold sent in H.
  destruct (MakeCreateChatCompletion (gai s) sent w) as [cr w1].
  destruct (RequestCreateChatCompletion (gai s) cr w1) as [r w2].
  now rewrite H.
Qed.

(** X2. Optimized mode (a non-empty input, or prompt optimization on):
    when the client answers, the ShapeResult carries the optimized prompt,
    which is the prompt that was sent, the content of the first choice as
    raw result, and as Result the optimized response with the trailing
    terminator normalized. *)
Theorem ShapeText_optimized_mode s promptOrg inputOrg w tr cr w1 comp w2 :
  eqb inputOrg [] && negb (promptOptimize s) = false ->
  MakeCreateChatCompletion (gai s) (optimizePrompt promptOrg inputOrg) w
  = (cr, w1) ->
  RequestCreateChatCompletion (gai s) cr w1 = (Ok comp, w2) ->
  exists sr computed,
    ShapeText s promptOrg inputOrg (w, tr)
    = (Ok sr, (w2, tr ++ [CallMake (optimizePrompt promptOrg inputOrg) cr;
                          CallRequest cr]))
    /\ Prompt sr = optimizePrompt promptOrg inputOrg
    /\ answerOf (Ok comp) = Ok (RawResult sr)
    /\ optimizeResponseResult (RawResult sr) (useFirstCodeBlock s) = Ok computed
    /\ Result sr
       = (if HasSuffix computed (lit "\n") then computed
          else computed ++ lit "\n").
Proof.
  intros Hmode Hmake Hreq.
  pose proof (ShapeText_eq s promptOrg inputOrg w tr) as H. cbv zeta in H.
  rewrite Hmode in H. rewrite Hmake, Hreq in H. rewrite H.
  assert (Hans : exists raw, answerOf (Ok comp) = Ok raw).
  { unfold answerOf, Ok. destruct (Choices comp); eauto. }
  destruct Hans as [raw Hraw]. rewrite Hraw. unfold Ok at 1. cbv iota beta.
  destruct (optimizeResponseResult_total raw (useFirstCodeBlock s))
    as [computed Hc].
  rewrite Hc. unfold Ok at 1. cbv iota beta.
  eexists. exists computed. split; [reflexivity|].
  split; [reflexivity|]. split; [reflexivity|]. split; [exact Hc|].
  apply NewShapeResult_Result.
Qed.

(** X3. A shaping call fails exactly when the client's request fails, in
    both modes; no ShapeResult comes back then, and the error is the
    client's error wrapped once: its text is "failed to send chat message: "
    followed by the client's text, and it wraps ErrUnexpectedStatusCode
    exactly when the client's error does. *)
Theorem ShapeText_fails_iff s promptOrg inputOrg w tr :
  let sent := sentPrompt s promptOrg inputOrg in
  let '(cr, w1) := MakeCreateChatCompletion (gai s) sent w in
  let '(r, w2) := RequestCreateChatCompletion (gai s) cr w1 in
  forall e,
    fst (ShapeText s promptOrg inputOrg (w, tr)) = Err e
    <-> exists err,
          r = Err err
          /\ e = Errorf_w (lit "failed to send chat message: ") err []
          /\ Error e = lit "failed to send chat message: " ++ Error err
          /\ Is_ErrUnexpectedStatusCode e = Is_ErrUnexpectedStatusCode err.
Proof.
  intros sent. pose proof (ShapeText_eq s promptOrg inputOrg w tr) as H.
  cbv zeta in H. fold sent in H.
  destruct (MakeCreateChatCompletion (gai s) sent w) as [cr w1].
  destruct (RequestCreateChatCompletion (gai s) cr w1) as [r w2].
  intros e. rewrite H. cbn [fst]. clear H. split.
  - destruct r as [err|comp].
    + cbn [answerOf]. intros [= <-]. exists err.
      repeat split. simpl. now rewrite app_nil_r.
    + assert (Hans : exists raw, answerOf (inr comp) = Ok raw).
      { unfold answerOf, Ok. destruct (Choices comp); eauto. }
      destruct Hans as [raw ->]. unfold Ok at 1. cbv iota beta.
      destruct (eqb inputOrg [] && negb (promptOptimize s)); [discriminate|].
      destruct (optimizeResponseResult_total raw (useFirstCodeBlock s))
        as [computed ->].
      discriminate.
  - intros (err & -> & -> & _). reflexivity.
Qed.

End ShapeTextFacts.

Lemma ShapeText_optimized_mode_witness :
  exists sr,
    fst (ShapeText (NewShaper scriptedClient 1 false true) (lit "fix") (lit "txt")
           ([Ok (completionOf [(lit "```go\nx := 1\n```", lit "stop")])], []))
    = Ok sr
    /\ Prompt sr = optimizePrompt (lit "fix") (lit "txt")
    /\ RawResult sr = lit "```go\nx := 1\n```"
    /\ Result sr = lit "x := 1\n".
Proof.
  destruct (ShapeText_optimized_mode (NewShaper scriptedClient 1 false true)
              (lit "fix") (lit "txt")
              [Ok (completionOf [(lit "```go\nx := 1\n```", lit "stop")])] []
              eq_refl eq_refl eq_refl) as (sr & computed & H1 & H2 & H3 & H4 & H5).
  exists sr. rewrite H1. split; [reflexivity|]. split; [exact H2|].
  injection H3 as H3. rewrite <- H3 in H4 |- *. split; [reflexivity|].
  rewrite H5. injection H4 as <-. reflexivity.
Defined.

Lemma ShapeText_fails_iff_witness :
  fst (ShapeText (NewShaper scriptedClient 1 false true) (lit "fix") (lit "txt")
         ([Err ErrUnexpectedStatusCode], []))
  = Err (Errorf_w (lit "failed to send chat message: ")
           ErrUnexpectedStatusCode []).
Proof.
  apply (proj2 (ShapeText_fails_iff (NewShaper scriptedClient 1 false true)
                  (lit "fix") (lit "txt") [Err ErrUnexpectedStatusCode] [] _)).
  exists ErrUnexpectedStatusCode. repeat split.
Defined.

(** * The prompt optimizer *)

Section PromptFacts.

(** The text between the prompt and the input in an optimized prompt. *)
Local Abbreviation between :=
  (lit ". ("
   ++ Join
        [ lit "The subject of the Instruction is the area enclosed by the ai-text-shaper-input tag.";
          lit "The result should be returned in the language of the Instruction, but if the Instruction has a language specification, that language should be given priority.";
          lit "Provide additional explanations or details only if explicitly requested in the Instruction." ]
        (lit " ")
   ++ lit ")</Instruction>\n<ai-text-shaper-input>").

Lemma optimizePrompt_parts (prompt input : gostring) :
  optimizePrompt prompt input
  = lit "<Instruction>" ++ prompt ++ between ++ input
    ++ lit "</ai-text-shaper-input>".
Proof.
  unfold optimizePrompt. cbv zeta.
  rewrite <- !app_assoc. reflexivity.
Qed.

(** X4. The optimized prompt embeds the prompt and the input as they are,
    between fixed texts: it determines the input when the prompt is known
    and the prompt when the input is known.  Nothing is escaped, so it
    does not determine the pair: two different pairs of prompt and input
    give the same optimized prompt. *)
Theorem optimizePrompt_embedding :
  (exists mid, forall prompt input,
     optimizePrompt prompt input
     = lit "<Instruction>" ++ prompt ++ mid ++ input
       ++ lit "</ai-text-shaper-input>")
  /\ (forall prompt input input',
        optimizePrompt prompt input = optimizePrompt prompt input' ->
        input = input')
  /\ (forall prompt prompt' input,
        optimizePrompt prompt input = optimizePrompt prompt' input ->
        prompt = prompt')
  /\ (exists prompt input prompt' input',
        prompt <> prompt' /\ input <> input'
        /\ optimizePrompt prompt input = optimizePrompt prompt' input').
Proof.
  split; [|split; [|split]].
  - exists between. apply optimizePrompt_parts.
  - intros prompt input input'. rewrite !optimizePrompt_parts. intros H.
    apply app_inv_head in H. apply app_inv_head in H.
    apply app_inv_head in H. now apply app_inv_tail in H.
  - intros prompt prompt' input. rewrite !optimizePrompt_parts. intros H.
    apply app_inv_head in H. now apply app_inv_tail in H.
  - exists (lit "p"), (lit "y" ++ between ++ lit "z"),
           (lit "p" ++ between ++ lit "y"), (lit "z").
    split; [|split].
    + intros H. rewrite <- (app_nil_r (lit "p")) in H at 1.
      apply app_inv_head in H. symmetry in H.
      apply app_eq_nil in H. destruct H as [_ H]. discriminate H.
    + intros H. rewrite <- (app_nil_l (lit "z")) in H at 2.
      rewrite app_assoc in H. apply app_inv_tail in H.
      apply app_eq_nil in H. destruct H as [H _]. discriminate H.
    + rewrite !optimizePrompt_parts. rewrite <- !app_assoc. reflexivity.
Qed.

Lemma optimizePrompt_embedding_witness :
  optimizePrompt (lit "fix") (lit "txt") <> optimizePrompt (lit "fix") (lit "doc").
Proof.
  intros H.
  apply (proj1 (proj2 optimizePrompt_embedding) (lit "fix") (lit "txt") (lit "doc"))
    in H.
  discriminate H.
Defined.

End PromptFacts.

(** * The code block search: which block is found *)

Section FirstBlockFacts.

Lemma lazy_star_complete (R : Type) (class : ascii -> bool)
    (k : gostring -> gostring -> option R) (taken rest acc : gostring) :
  forallb class taken = true ->
  k (acc ++ taken) rest <> None ->
  lazy_star class k acc (taken ++ rest) <> None.
Proof.
  revert acc; induction taken as [|c taken IH]; intros acc Hall Hk.
  - rewrite app_nil_r in Hk. simpl.
    destruct rest; simpl; destruct (k acc _); congruence.
  - simpl in Hall. apply andb_true_iff in Hall. destruct Hall as [Hc Hall].
    simpl. destruct (k acc (c :: taken ++ rest)); [discriminate|].
    rewrite Hc. apply IH; [exact Hall|]. now rewrite <- app_assoc.
Qed.

(** The lazy star takes the fewest characters its continuation accepts. *)
Lemma lazy_star_shortest (R : Type) (class : ascii -> bool)
    (k : gostring -> gostring -> option R) (s acc : gostring) (r : R) :
  lazy_star class k acc s = Some r ->
  exists taken rest,
    s = taken ++ rest /\ k (acc ++ taken) rest = Some r
    /\ forall p q, s = p ++ q -> length p < length taken ->
                   k (acc ++ p) q = None.
Proof.
  revert acc; induction s as [|c s IH]; intros acc; simpl.
  - destruct (k acc []) eqn:Hk; [|discriminate].
    intros [= ->]. exists [], []. simpl. rewrite app_nil_r.
    split; [reflexivity|]. split; [exact Hk|]. intros p q _ Hlt. inversion Hlt.
  - destruct (k acc (c :: s)) eqn:Hk.
    + intros [= ->]. exists [], (c :: s). simpl. rewrite app_nil_r.
      split; [reflexivity|]. split; [exact Hk|]. intros p q _ Hlt.
      inversion Hlt.
    + destruct (class c); [|discriminate]. intros H.
      destruct (IH _ H) as (taken & rest & -> & Hrest & Hmin).
      exists (c :: taken), rest. rewrite <- app_assoc in Hrest.
      split; [reflexivity|]. split; [exact Hrest|].
      intros [|d p] q Heq Hlt; simpl in Heq.
      * subst q. now rewrite app_nil_r.
      * injection Heq as <- Heq. simpl in Hlt.
        replace (acc ++ c :: p) with ((acc ++ [c]) ++ p)
          by (now rewrite <- app_assoc).
        apply Hmin; [exact Heq | lia].
Qed.

(** A text that starts with a block starts a match. *)
Lemma match_here_complete (tag body rest : gostring) :
  forallb alnum tag = true ->
  match_here codeBlockPattern
    (lit "```" ++ tag ++ LF :: body ++ LF :: lit "```" ++ rest) <> None.
Proof.
  intros Htag. rewrite match_here_codeBlockPattern.
  rewrite (proj2 (CutPrefix_iff _ (lit "```") _) eq_refl).
  apply lazy_star_complete; [exact Htag|].
  change (lit "\n") with [LF]. cbn [CutPrefix]. rewrite Ascii.eqb_refl.
  apply lazy_star_complete; [now apply forallb_forall|].
  cbn [CutPrefix]. rewrite Ascii.eqb_refl.
  change (CutPrefix (lit "```" ++ rest) (lit "```")) with (Some rest).
  discriminate.
Qed.

(** A match ends at the first closing fence after the opening line. *)
Lemma match_here_shortest (s m0 m1 : gostring) :
  match_here codeBlockPattern s = Some (m0, m1) ->
  exists tag body rest,
    s = lit "```" ++ tag ++ LF :: body ++ LF :: lit "```" ++ rest
    /\ forallb alnum tag = true
    /\ m1 = body ++ [LF]
    /\ forall tag' body' rest',
         forallb alnum tag' = true ->
         s = lit "```" ++ tag' ++ LF :: body' ++ LF :: lit "```" ++ rest' ->
         length body <= length body'.
Proof.
  rewrite match_here_codeBlockPattern.
  destruct (CutPrefix s (lit "```")) as [s0|] eqn:H0; [|discriminate].
  apply CutPrefix_iff in H0. intros H.
  apply lazy_star_sound in H. destruct H as (tag & s1 & -> & Htag & H).
  destruct (CutPrefix s1 (lit "\n")) as [s2|] eqn:H1; [|discriminate].
  apply CutPrefix_iff in H1.
  apply lazy_star_shortest in H. destruct H as (body & s3 & -> & H & Hmin).
  destruct (CutPrefix s3 (lit "\n")) as [s4|] eqn:H3; [|discriminate].
  apply CutPrefix_iff in H3.
  destruct (CutPrefix s4 (lit "```")) as [s5|] eqn:H4; [|discriminate].
  apply CutPrefix_iff in H4. injection H as _ <-.
  exists tag, body, s5. subst. simpl.
  split; [reflexivity|]. split; [exact Htag|].
  split; [reflexivity|].
  intros tag' body' rest' Htag' Heq.
  injection Heq as Heq.
  apply first_LF_unique in Heq; try now apply alnum_not_LF.
  destruct Heq as [_ Heq].
  destruct (Nat.le_gt_cases (length body) (length body')) as [Hle|Hgt];
    [exact Hle|].
  specialize (Hmin body' _ Heq Hgt). simpl in Hmin. discriminate.
Qed.

(** The search returns the match that starts first. *)
Lemma FindStringSubmatch_leftmost (r : regex) (text : gostring) m :
  FindStringSubmatch r text = Some m ->
  exists before s,
    text = before ++ s /\ match_here r s = Some m
    /\ forall before' s', text = before' ++ s' ->
                          length before' < length before ->
                          match_here r s' = None.
Proof.
  induction text as [|c text IH]; simpl.
  - destruct (match_here r []) eqn:H; [|discriminate].
    intros [= ->]. exists [], []. repeat split; trivial.
    intros b' s' _ Hlt. inversion Hlt.
  - destruct (match_here r (c :: text)) eqn:H.
    + intros [= ->]. exists [], (c :: text). repeat split; trivial.
      intros b' s' _ Hlt. inversion Hlt.
    + intros H'. destruct (IH H') as (before & s & -> & Hs & Hmin).
      exists (c :: before), s. repeat split; trivial.
      intros [|d b'] s' Heq Hlt; simpl in Heq.
      * now subst s'.
      * injection Heq as <- Heq. simpl in Hlt. apply (Hmin b'); [exact Heq|lia].
Qed.

Lemma app_same_length (a a' x y : gostring) :
  length a = length a' -> a ++ x = a' ++ y -> x = y.
Proof.
  revert a'; induction a as [|c a IH]; intros [|c' a']; simpl; try easy.
  intros [= Hlen] [= _ H]. now apply (IH a').
Qed.

(** X5. The search finds a code block exactly in the texts that hold one:
    [findMarkdownFirstCodeBlock] returns a non-empty interior if and only
    if the text has, somewhere, three backticks, a tag of letters and
    digits (possibly empty), a line break, a body, a line break and three
    backticks. *)
Theorem findMarkdownFirstCodeBlock_found_iff (text : gostring) :
  (exists codeBlock,
     findMarkdownFirstCodeBlock text = Ok codeBlock /\ codeBlock <> [])
  <-> exists before tag body rest,
        text = before ++ lit "```" ++ tag ++ lit "\n" ++ body ++ lit "\n```"
               ++ rest
        /\ forallb alnum tag = true.
Proof.
  unfold findMarkdownFirstCodeBlock. simpl. split.
  - intros (codeBlock & H & Hne).
    destruct (FindStringSubmatch codeBlockPattern text) as [[m0 m1]|] eqn:Hf.
    + apply FindStringSubmatch_codeBlock in Hf.
      destruct Hf as (before & tag & body & rest & -> & Htag & _).
      now exists before, tag, body, rest.
    + injection H as <-. congruence.
  - intros (before & tag & body & rest & -> & Htag).
    change (lit "\n" ++ body ++ lit "\n```" ++ rest)
      with (LF :: body ++ LF :: lit "```" ++ rest).
    destruct (FindStringSubmatch codeBlockPattern _) as [[m0 m1]|] eqn:Hf.
    + exists m1. split; [reflexivity|].
      apply FindStringSubmatch_codeBlock in Hf.
      destruct Hf as (_ & _ & body' & _ & _ & _ & -> & _).
      destruct body'; discriminate.
    + exfalso. revert Hf. induction before as [|c before IH].
      * pose proof (@match_here_complete tag body rest Htag) as Hc.
        revert Hc. simpl app. cbn [FindStringSubmatch].
        destruct (match_here codeBlockPattern _); congruence.
      * simpl. destruct (match_here codeBlockPattern _); [discriminate|].
        exact IH.
Qed.

(** X6. The block that is found is the first one: of all the ways to see
    a block in the text, the interior returned belongs to one that starts
    earliest and, among those, ends at the first closing fence. *)
Theorem findMarkdownFirstCodeBlock_first_block (text codeBlock : gostring) :
  findMarkdownFirstCodeBlock text = Ok codeBlock ->
  codeBlock <> [] ->
  exists before tag body rest,
    text = before ++ lit "```" ++ tag ++ lit "\n" ++ body ++ lit "\n```" ++ rest
    /\ forallb alnum tag = true
    /\ codeBlock = body ++ lit "\n"
    /\ forall before' tag' body' rest',
         forallb alnum tag' = true ->
         text = before' ++ lit "```" ++ tag' ++ lit "\n" ++ body'
                ++ lit "\n```" ++ rest' ->
         length before <= length before'
         /\ (length before' = length before -> length body <= length body').
Proof.
  unfold findMarkdownFirstCodeBlock. simpl.
  destruct (FindStringSubmatch codeBlockPattern text) as [[m0 m1]|] eqn:Hf;
    [|intros [= <-]; congruence].
  intros [= <-] _. apply FindStringSubmatch_leftmost in Hf.
  destruct Hf as (before & s & -> & Hs & Hleft).
  apply match_here_shortest in Hs.
  destruct Hs as (tag & body & rest & -> & Htag & -> & Hshort).
  exists before, tag, body, rest.
  split; [reflexivity|]. split; [exact Htag|]. split; [reflexivity|].
  intros before' tag' body' rest' Htag' Heq.
  change (lit "\n" ++ body' ++ lit "\n```" ++ rest')
    with (LF :: body' ++ LF :: lit "```" ++ rest') in Heq.
  assert (Hle : length before <= length before').
  { destruct (Nat.le_gt_cases (length before) (length before')) as [H|H];
      [exact H|].
    specialize (Hleft _ _ Heq H).
    now apply (@match_here_complete tag' body' rest' Htag') in Hleft. }
  split; [exact Hle|]. intros Hlen.
  apply app_same_length in Heq; [|now symmetry].
  now apply (Hshort tag' body' rest').
Qed.

Lemma findMarkdownFirstCodeBlock_found_iff_witness :
  exists codeBlock,
    findMarkdownFirstCodeBlock (lit "a\n```py\nB\n```\n") = Ok codeBlock
    /\ codeBlock <> [].
Proof.
  apply (proj2 (findMarkdownFirstCodeBlock_found_iff (lit "a\n```py\nB\n```\n"))).
  exists (lit "a\n"), (lit "py"), (lit "B"), (lit "\n"). now split.
Defined.

Lemma findMarkdownFirstCodeBlock_first_block_witness :
  exists before tag body rest,
    lit "```js\nA\n```\nB\n```" = before ++ lit "```" ++ tag ++ lit "\n" ++ body
                                 ++ lit "\n```" ++ rest
    /\ lit "A\n" = body ++ lit "\n".
Proof.
  destruct (@findMarkdownFirstCodeBlock_first_block
              (lit "```js\nA\n```\nB\n```") (lit "A\n") eq_refl)
    as (before & tag & body & rest & H1 & _ & H3 & _).
  - discriminate.
  - now exists before, tag, body, rest.
Defined.

End FirstBlockFacts.

(** * The response optimizer: what it keeps *)

Section OptimizerMore.

Lemma occurs_in_refl (s : gostring) : occurs_in s s.
Proof. exists [], []. now rewrite app_nil_r. Qed.

Lemma occurs_in_trans (a b c : gostring) :
  occurs_in a b -> occurs_in b c -> occurs_in a c.
Proof.
  intros (p & q & ->) (p' & q' & ->). exists (p' ++ p), (q ++ q').
  now rewrite <- !app_assoc.
Qed.

Lemma occurs_in_length (a b : gostring) : occurs_in a b -> length a <= length b.
Proof. intros (p & q & ->). rewrite !length_app. lia. Qed.

(** The fence-stripping step on a text of more than two lines that starts
    and ends with a fence. *)
Lemma optimizeResponseResult_wrapped (first mid last : gostring) (b : bool) :
  ~ In LF first -> ~ In LF last ->
  HasPrefix (first ++ LF :: mid ++ LF :: last) (lit "```") = true ->
  HasSuffix (first ++ LF :: mid ++ LF :: last) (lit "```") = true ->
  optimizeResponseResult (first ++ LF :: mid ++ LF :: last) b
  = if b then
      match FindStringSubmatch codeBlockPattern mid with
      | Some (_, m1) => Ok m1
      | None => Ok mid
      end
    else Ok mid.
Proof.
  intros Hfirst Hlast Hp Hs.
  rewrite optimizeResponseResult_steps, Hp, Hs. simpl andb. cbv iota.
  destruct (@Split_first_mid_last LF first mid last Hfirst Hlast)
    as [Hlen Hjoin].
  cbv zeta in Hlen, Hjoin. apply Nat.ltb_lt in Hlen. rewrite Hlen.
  change (lit "\n") with [LF]. rewrite Hjoin. reflexivity.
Qed.

Lemma FindStringSubmatch_part (text m0 m1 : gostring) :
  FindStringSubmatch codeBlockPattern text = Some (m0, m1) ->
  occurs_in m1 text.
Proof.
  intros H. apply FindStringSubmatch_codeBlock in H.
  destruct H as (before & tag & body & rest & -> & _ & -> & _).
  exists (before ++ lit "```" ++ tag ++ [LF]), (lit "```" ++ rest).
  rewrite <- ?app_assoc. simpl. rewrite <- ?app_assoc. reflexivity.
Qed.

(** X7. The optimizer only cuts: it never fails, and its result is a
    contiguous part of the raw response, so never longer than it.  Without
    the first-code-block option the response comes back unchanged exactly
    when the fence-stripping step does not fire, that is unless it starts
    with three backticks, ends with three backticks and has more than two
    lines. *)
Theorem optimizeResponseResult_part_of_raw (rawResult : gostring) :
  (forall b, exists result,
     optimizeResponseResult rawResult b = Ok result
     /\ occurs_in result rawResult
     /\ length result <= length rawResult)
  /\ (optimizeResponseResult rawResult false = Ok rawResult
      <-> HasPrefix rawResult (lit "```") && HasSuffix rawResult (lit "```")
          && (2 <? length (Split rawResult LF)) = false).
Proof.
  assert (Hcases :
    (HasPrefix rawResult (lit "```") && HasSuffix rawResult (lit "```")
     && (2 <? length (Split rawResult LF)) = false
     /\ forall b, optimizeResponseResult rawResult b
                  = if b then
                      match FindStringSubmatch codeBlockPattern rawResult with
                      | Some (_, m1) => Ok m1
                      | None => Ok rawResult
                      end
                    else Ok rawResult)
    \/ (HasPrefix rawResult (lit "```") && HasSuffix rawResult (lit "```")
        && (2 <? length (Split rawResult LF)) = true
        /\ exists first mid last,
             rawResult = first ++ LF :: mid ++ LF :: last
             /\ forall b, optimizeResponseResult rawResult b
                          = if b then
                              match FindStringSubmatch codeBlockPattern mid with
                              | Some (_, m1) => Ok m1
                              | None => Ok mid
                              end
                            else Ok mid)).
  { destruct (HasPrefix rawResult (lit "```")) eqn:Hp;
      [destruct (HasSuffix rawResult (lit "```")) eqn:Hs;
       [destruct (2 <? length (Split rawResult LF)) eqn:Hl|]|].
    - right. split; [reflexivity|]. apply Nat.ltb_lt in Hl.
      destruct (@Split_more_than_two LF rawResult Hl)
        as (first & mid & last & -> & Hf & Hla).
      exists first, mid, last. split; [reflexivity|]. intros b.
      now apply optimizeResponseResult_wrapped.
    - left. split; [reflexivity|]. intros b.
      rewrite optimizeResponseResult_steps, Hp, Hs, Hl. reflexivity.
    - left. split; [reflexivity|]. intros b.
      rewrite optimizeResponseResult_steps, Hp, Hs. reflexivity.
    - left. split; [reflexivity|]. intros b.
      rewrite optimizeResponseResult_steps, Hp. reflexivity. }
  destruct Hcases as [[Hg Heq]|[Hg (first & mid & last & Hraw & Heq)]].
  - split.
    + intros b. rewrite Heq. destruct b.
      * destruct (FindStringSubmatch codeBlockPattern rawResult)
          as [[m0 m1]|] eqn:Hf.
        -- exists m1. apply FindStringSubmatch_part in Hf.
           split; [reflexivity|]. split; [exact Hf|].
           now apply occurs_in_length.
        -- exists rawResult. split; [reflexivity|].
           split; [apply occurs_in_refl | lia].
      * exists rawResult. split; [reflexivity|].
        split; [apply occurs_in_refl | lia].
    + rewrite Heq. now split.
  - assert (Hmid : occurs_in mid rawResult).
    { rewrite Hraw. exists (first ++ [LF]), (LF :: last).
      now rewrite <- app_assoc. }
    split.
    + intros b. rewrite Heq. destruct b.
      * destruct (FindStringSubmatch codeBlockPattern mid) as [[m0 m1]|] eqn:Hf.
        -- exists m1. apply FindStringSubmatch_part in Hf.
           assert (H := occurs_in_trans Hf Hmid).
           split; [reflexivity|]. split; [exact H|].
           now apply occurs_in_length.
        -- exists mid. split; [reflexivity|]. split; [exact Hmid|].
           now apply occurs_in_length.
      * exists mid. split; [reflexivity|]. split; [exact Hmid|].
        now apply occurs_in_length.
    + rewrite Heq, Hg. split; [|discriminate].
      intros [= H]. apply (f_equal (@length ascii)) in H.
      rewrite Hraw in H. rewrite !length_app in H. simpl in H.
      rewrite length_app in H. simpl in H. lia.
Qed.

Lemma fence_occurs (before tag body rest : gostring) :
  occurs_in (lit "```")
    (before ++ lit "```" ++ tag ++ LF :: body ++ LF :: lit "```" ++ rest).
Proof.
  exists before, (tag ++ LF :: body ++ LF :: lit "```" ++ rest).
  reflexivity.
Qed.

(** A text without a fence holds no block. *)
Lemma FindStringSubmatch_no_fence (body : gostring) :
  ~ occurs_in (lit "```") body ->
  FindStringSubmatch codeBlockPattern body = None.
Proof.
  intros Hbody.
  destruct (FindStringSubmatch codeBlockPattern body) as [[m0 m1]|] eqn:Hf;
    [|reflexivity].
  apply FindStringSubmatch_codeBlock in Hf.
  destruct Hf as (before & tag' & body' & rest & -> & _).
  exfalso. apply Hbody. apply fence_occurs.
Qed.

(** The fence-stripping step on a text that is one fenced block. *)
Lemma optimizeResponseResult_fenced (tag body : gostring) (b : bool) :
  ~ In LF tag ->
  optimizeResponseResult
    (lit "```" ++ tag ++ lit "\n" ++ body ++ lit "\n```") b
  = if b then
      match FindStringSubmatch codeBlockPattern body with
      | Some (_, m1) => Ok m1
      | None => Ok body
      end
    else Ok body.
Proof.
  intros Htag. change (lit "\n```") with (LF :: lit "```").
  change (lit "\n" ++ body ++ LF :: lit "```")
    with (LF :: body ++ LF :: lit "```").
  assert (Hfirst : ~ In LF (lit "```" ++ tag)).
  { rewrite in_app_iff. intros [H|H]; [now apply backticks_no_LF | auto]. }
  replace (lit "```" ++ tag ++ LF :: body ++ LF :: lit "```")
    with ((lit "```" ++ tag) ++ LF :: body ++ LF :: lit "```")
    by (now rewrite <- app_assoc).
  apply (@optimizeResponseResult_wrapped (lit "```" ++ tag) body (lit "```") b
           Hfirst backticks_no_LF).
  - rewrite <- app_assoc. apply HasPrefix_app.
  - replace ((lit "```" ++ tag) ++ LF :: body ++ LF :: lit "```")
      with (((lit "```" ++ tag) ++ LF :: body ++ [LF]) ++ lit "```").
    + apply HasSuffix_app.
    + rewrite <- ?app_assoc. simpl. rewrite <- ?app_assoc. reflexivity.
Qed.

(** X8. A response that is one fenced block, an opening fence line with
    any tag, a body that holds no fence, and a closing fence, gives the
    body alone, with or without the first-code-block option. *)
Theorem optimizeResponseResult_single_block (tag body : gostring) (b : bool) :
  ~ In LF tag ->
  ~ occurs_in (lit "```") body ->
  optimizeResponseResult
    (lit "```" ++ tag ++ lit "\n" ++ body ++ lit "\n```") b
  = Ok body.
Proof.
  intros Htag Hbody. rewrite (@optimizeResponseResult_fenced tag body b Htag).
  rewrite (@FindStringSubmatch_no_fence body Hbody). destruct b; reflexivity.
Qed.

Lemma optimizeResponseResult_part_of_raw_witness :
  optimizeResponseResult (lit "```\n") false = Ok (lit "```\n").
Proof.
  apply (proj2 (optimizeResponseResult_part_of_raw (lit "```\n"))).
  reflexivity.
Defined.

Lemma optimizeResponseResult_single_block_witness :
  optimizeResponseResult (lit "```go\nx := `a`\n\ny\n```") true
  = Ok (lit "x := `a`\n\ny").
Proof.
  apply (@optimizeResponseResult_single_block (lit "go") (lit "x := `a`\n\ny") true).
  - simpl. intuition discriminate.
  - intros (p & q & H). simpl in H.
    repeat (destruct p as [|? p]; simpl in H; try discriminate).
Defined.

End OptimizerMore.

(** * The transport: when a completion comes back, and when the sentinel *)

Section TransportMore.
Import OpenAI.
Variable W : Type.
Variable Context : Type.
Variable json_Marshal : CreateChatCompletion -> libresult gostring.
Variable http_NewRequestWithContext :
  Context -> gostring -> gostring -> gostring -> libresult HttpRequest.
Variable client_Do : HttpRequest -> W -> libresult HttpResponse * W.
Variable json_Unmarshal_ErrorResponse : gostring -> libresult ErrorResponse.
Variable json_Unmarshal_ChatCompletion : gostring -> libresult ChatCompletion.

Local Abbreviation send :=
  (sendChatCompletionsRequest json_Marshal http_NewRequestWithContext client_Do).
Local Abbreviation request :=
  (RequestCreateChatCompletion json_Marshal http_NewRequestWithContext
     client_Do json_Unmarshal_ErrorResponse json_Unmarshal_ChatCompletion).

(** The sending step fails with the wrapped error of a library, and it
    leaves the network alone unless the exchange itself was tried. *)
Lemma sendChatCompletionsRequest_error c ctx ccc w e w' :
  send c ctx ccc w = (Err e, w') ->
  exists before err,
    e = Errorf_w before (LibraryError err) []
    /\ (before = lit "request failed: " \/ w' = w).
Proof.
  unfold sendChatCompletionsRequest.
  destruct (json_Marshal ccc) as [err|requestBody].
  - intros [= <- <-]. eauto.
  - destruct (http_NewRequestWithContext _ _ _ _) as [err|req].
    + intros [= <- <-]. eauto.
    + destruct (client_Do _ w) as [[err|resp] w1].
      * intros [= <- <-]. eauto.
      * discriminate.
Qed.

(** X9. [RequestCreateChatCompletion] returns an error that wraps
    ErrUnexpectedStatusCode only for a response that was received and read,
    whose status code is above 299 and whose body decoded as an error
    response; every other failure (marshalling, building or sending the
    request, reading the body, decoding either body) gives an error that
    does not wrap it. *)
Theorem RequestCreateChatCompletion_sentinel_only_for_status
    (c : ChatClient) (ctx : Context) (ccc : CreateChatCompletion)
    (w w' : W) (e : error) :
  request c ctx ccc w = (Err e, w') ->
  Is_ErrUnexpectedStatusCode e = true ->
  exists resp respBody errorResponse,
    send c ctx ccc w = (Ok resp, w')
    /\ ReadAll_Body resp = inr respBody
    /\ (299 < StatusCode resp)%Z
    /\ json_Unmarshal_ErrorResponse respBody = inr errorResponse
    /\ Error e
       = lit "unexpected status code: " ++ format_d (StatusCode resp)
         ++ lit " '" ++ ErrMessage (ErrorField errorResponse) ++ lit "'".
Proof.
  unfold RequestCreateChatCompletion.
  destruct (send c ctx ccc w) as [[err|resp] w1] eqn:Hsend.
  - apply sendChatCompletionsRequest_error in Hsend.
    destruct Hsend as (before & err' & -> & _).
    intros [= <- <-]. discriminate.
  - destruct (ReadAll_Body resp) as [err|respBody] eqn:Hread.
    + intros [= <- <-]. discriminate.
    + destruct (299 <? StatusCode resp)%Z eqn:Hcode.
      * destruct (json_Unmarshal_ErrorResponse respBody)
          as [err|errorResponse] eqn:Hdec.
        -- intros [= <- <-]. discriminate.
        -- intros [= <- <-] _. exists resp, respBody, errorResponse.
           apply Z.ltb_lt in Hcode. repeat split; trivial.
      * unfold makeChatCompletions.
        destruct (json_Unmarshal_ChatCompletion respBody) as [err|comp].
        -- intros [= <- <-]. discriminate.
        -- discriminate.
Qed.

(** X10. [RequestCreateChatCompletion] returns a completion exactly when
    the response was received and read, its status code is at most 299
    (codes below 200 included) and its body decodes as a completion; the
    completion returned is the decoded one. *)
Theorem RequestCreateChatCompletion_success_iff
    (c : ChatClient) (ctx : Context) (ccc : CreateChatCompletion)
    (w w' : W) (comp : ChatCompletion) :
  request c ctx ccc w = (Ok comp, w')
  <-> exists resp respBody,
        send c ctx ccc w = (Ok resp, w')
        /\ ReadAll_Body resp = inr respBody
        /\ (StatusCode resp <= 299)%Z
        /\ json_Unmarshal_ChatCompletion respBody = inr comp.
Proof.
  unfold RequestCreateChatCompletion. split.
  - destruct (send c ctx ccc w) as [[err|resp] w1] eqn:Hsend; [discriminate|].
    destruct (ReadAll_Body resp) as [err|respBody] eqn:Hread; [discriminate|].
    destruct (299 <? StatusCode resp)%Z eqn:Hcode.
    + destruct (json_Unmarshal_ErrorResponse respBody); discriminate.
    + unfold makeChatCompletions.
      destruct (json_Unmarshal_ChatCompletion respBody) as [err|comp'] eqn:Hdec;
        [discriminate|].
      intros [= <- <-]. exists resp, respBody.
      apply Z.ltb_ge in Hcode. repeat split; trivial.
  - intros (resp & respBody & -> & Hread & Hcode & Hdec).
    unfold Ok at 1. cbv iota beta. rewrite Hread.
    apply Z.ltb_ge in Hcode. rewrite Hcode.
    unfold makeChatCompletions. now rewrite Hdec.
Qed.

End TransportMore.

Lemma RequestCreateChatCompletion_sentinel_only_for_status_witness :
  exists resp respBody errorResponse,
    OpenAI.sendChatCompletionsRequest OpenAI.cannedMarshal
      OpenAI.cannedNewRequest OpenAI.cannedDo
      (OpenAI.New (lit "key") (lit "gpt-4o") [] None) tt
      (fst (scriptedMake (lit "p") []))
      {| OpenAI.StatusCode := 400;
         OpenAI.ReadAll_Body := inr OpenAI.badRequestBody |}
    = (Ok resp, {| OpenAI.StatusCode := 400;
                   OpenAI.ReadAll_Body := inr OpenAI.badRequestBody |})
    /\ OpenAI.ReadAll_Body resp = inr respBody
    /\ (299 < OpenAI.StatusCode resp)%Z
    /\ OpenAI.decodeErrorBody respBody = inr errorResponse
    /\ lit "unexpected status code: 400 'bad request'"
       = lit "unexpected status code: " ++ format_d (OpenAI.StatusCode resp)
         ++ lit " '" ++ ErrMessage (ErrorField errorResponse) ++ lit "'".
Proof.
  exact (@RequestCreateChatCompletion_sentinel_only_for_status _ _
           OpenAI.cannedMarshal OpenAI.cannedNewRequest OpenAI.cannedDo
           OpenAI.decodeErrorBody OpenAI.noCompletionDecoder
           (OpenAI.New (lit "key") (lit "gpt-4o") [] None) tt
           (fst (scriptedMake (lit "p") []))
           {| OpenAI.StatusCode := 400;
              OpenAI.ReadAll_Body := inr OpenAI.badRequestBody |}
           {| OpenAI.StatusCode := 400;
              OpenAI.ReadAll_Body := inr OpenAI.badRequestBody |}
           (Errorf_w [] ErrUnexpectedStatusCode (lit ": 400 'bad request'"))
           eq_refl eq_refl).
Defined.

Lemma RequestCreateChatCompletion_success_iff_witness :
  OpenAI.RequestCreateChatCompletion OpenAI.cannedMarshal
    OpenAI.cannedNewRequest OpenAI.cannedDo OpenAI.decodeErrorBody
    (fun _ => inr (completionOf [(lit "hi", lit "stop")]))
    (OpenAI.New (lit "key") (lit "gpt-4o") [] None) tt
    (fst (scriptedMake (lit "p") []))
    {| OpenAI.StatusCode := 100; OpenAI.ReadAll_Body := inr (lit "{}") |}
  = (Ok (completionOf [(lit "hi", lit "stop")]),
     {| OpenAI.StatusCode := 100; OpenAI.ReadAll_Body := inr (lit "{}") |}).
Proof.
  apply (proj2 (@RequestCreateChatCompletion_success_iff _ _
                  OpenAI.cannedMarshal OpenAI.cannedNewRequest OpenAI.cannedDo
                  OpenAI.decodeErrorBody
                  (fun _ => inr (completionOf [(lit "hi", lit "stop")]))
                  (OpenAI.New (lit "key") (lit "gpt-4o") [] None) tt
                  (fst (scriptedMake (lit "p") []))
                  _ _ _)).
  exists {| OpenAI.StatusCode := 100; OpenAI.ReadAll_Body := inr (lit "{}") |},
         (lit "{}").
  repeat split. simpl. lia.
Defined.

(** * Trimming white space *)

Section TrimFacts.
Import Cmd.
Variable runes : list gostring.
Hypothesis runes_not_empty : Forall (fun r => r <> []) runes.

Lemma cutAny_sound (s rest : gostring) :
  cutAny runes s = Some rest -> exists r, In r runes /\ s = r ++ rest.
Proof.
  clear runes_not_empty. induction runes as [|r rs IH]; simpl; [discriminate|].
  destruct (CutPrefix s r) as [rest'|] eqn:H.
  - intros [= ->]. apply CutPrefix_iff in H. exists r. now split; [left|].
  - intros H'. destruct (IH H') as (r' & Hin & Hs). exists r'. now split; [right|].
Qed.

Lemma cutAny_complete (r rest : gostring) :
  In r runes -> cutAny runes (r ++ rest) <> None.
Proof.
  clear runes_not_empty. induction runes as [|r' rs IH]; simpl; [easy|].
  intros [->|Hin].
  - assert (H : CutPrefix (r ++ rest) r = Some rest) by now apply CutPrefix_iff.
    now rewrite H.
  - destruct (CutPrefix (r ++ rest) r'); [discriminate | now apply IH].
Qed.

Lemma cutAny_prefix_None (u v : gostring) :
  cutAny runes (u ++ v) = None -> cutAny runes u = None.
Proof.
  intros H. destruct (cutAny runes u) as [rest|] eqn:Hu; [|reflexivity].
  apply cutAny_sound in Hu. destruct Hu as (r & Hin & ->).
  rewrite <- app_assoc in H. now apply cutAny_complete in H.
Qed.

Lemma cutAny_shorter (s rest : gostring) :
  cutAny runes s = Some rest -> length rest < length s.
Proof.
  intros H. apply cutAny_sound in H. destruct H as (r & Hin & ->).
  rewrite Forall_forall in runes_not_empty. apply runes_not_empty in Hin.
  rewrite length_app. destruct r; [congruence | simpl; lia].
Qed.

Lemma trimLeading_suffix (fuel : nat) (s : gostring) :
  exists taken, s = taken ++ trimLeading runes fuel s.
Proof.
  revert s; induction fuel as [|fuel IH]; intros s; simpl; [now exists []|].
  destruct (cutAny runes s) as [rest|] eqn:H; [|now exists []].
  apply cutAny_sound in H. destruct H as (r & _ & ->).
  destruct (IH rest) as [taken Ht]. exists (r ++ taken).
  now rewrite <- app_assoc, <- Ht.
Qed.

Lemma trimLeading_done (fuel : nat) (s : gostring) :
  length s <= fuel -> cutAny runes (trimLeading runes fuel s) = None.
Proof.
  revert s; induction fuel as [|fuel IH]; intros s Hlen; simpl.
  - destruct s; [|simpl in Hlen; lia].
    destruct (cutAny runes []) as [rest|] eqn:H; [|reflexivity].
    apply cutAny_shorter in H. inversion H.
  - destruct (cutAny runes s) as [rest|] eqn:H; [|exact H].
    apply IH. apply cutAny_shorter in H. lia.
Qed.

Lemma trimLeading_fixed (fuel : nat) (s : gostring) :
  cutAny runes s = None -> trimLeading runes fuel s = s.
Proof. intros H. destruct fuel; simpl; [reflexivity | now rewrite H]. Qed.

End TrimFacts.

Section TrimSpaceFacts.
Import Cmd.

Lemma whiteSpace_not_empty : Forall (fun r : gostring => r <> []) whiteSpace.
Proof. vm_compute. repeat constructor; discriminate. Qed.

Lemma whiteSpace_rev_not_empty :
  Forall (fun r : gostring => r <> []) (map (@rev ascii) whiteSpace).
Proof. vm_compute. repeat constructor; discriminate. Qed.

Lemma TrimLeftSpace_done (s : gostring) :
  cutAny whiteSpace (TrimLeftSpace s) = None.
Proof. now apply trimLeading_done; [apply whiteSpace_not_empty|]. Qed.

Lemma TrimRightSpace_rev (s : gostring) :
  rev (TrimRightSpace s)
  = trimLeading (map (@rev ascii) whiteSpace) (length s) (rev s).
Proof. unfold TrimRightSpace. apply rev_involutive. Qed.

Lemma TrimRightSpace_done (s : gostring) :
  cutAny (map (@rev ascii) whiteSpace) (rev (TrimRightSpace s)) = None.
Proof.
  rewrite TrimRightSpace_rev.
  apply trimLeading_done; [apply whiteSpace_rev_not_empty|].
  now rewrite length_rev.
Qed.

Lemma TrimRightSpace_prefix (s : gostring) :
  exists dropped, s = TrimRightSpace s ++ dropped.
Proof.
  destruct (trimLeading_suffix (map (@rev ascii) whiteSpace) (length s) (rev s))
    as [taken H].
  exists (rev taken). unfold TrimRightSpace.
  rewrite <- rev_app_distr, <- H. symmetry. apply rev_involutive.
Qed.

(** What [TrimSpace] returns is a part of its argument that neither starts
    nor ends with a white space rune. *)
Lemma TrimSpace_spec (s : gostring) :
  (exists before after, s = before ++ TrimSpace s ++ after)
  /\ cutAny whiteSpace (TrimSpace s) = None
  /\ cutAny (map (@rev ascii) whiteSpace) (rev (TrimSpace s)) = None.
Proof.
  unfold TrimSpace.
  destruct (trimLeading_suffix whiteSpace (length s) s) as [before Hb].
  fold (TrimLeftSpace s) in Hb.
  destruct (TrimRightSpace_prefix (TrimLeftSpace s)) as [after Ha].
  split; [|split].
  - exists before, after. now rewrite <- Ha.
  - apply (cutAny_prefix_None whiteSpace _ after). rewrite <- Ha.
    apply TrimLeftSpace_done.
  - apply TrimRightSpace_done.
Qed.

Lemma TrimSpace_fixed (s : gostring) :
  cutAny whiteSpace s = None ->
  cutAny (map (@rev ascii) whiteSpace) (rev s) = None ->
  TrimSpace s = s.
Proof.
  intros Hl Hr. unfold TrimSpace, TrimLeftSpace.
  rewrite (trimLeading_fixed _ _ _ Hl). unfold TrimRightSpace.
  rewrite (trimLeading_fixed _ _ _ Hr). apply rev_involutive.
Qed.

Lemma TrimSpace_idempotent (s : gostring) : TrimSpace (TrimSpace s) = TrimSpace s.
Proof.
  destruct (TrimSpace_spec s) as (_ & Hl & Hr). now apply TrimSpace_fixed.
Qed.

Lemma Split_lines_no_sep (sep : ascii) (s line : gostring) :
  In line (Split s sep) -> ~ In sep line.
Proof.
  revert line; induction s as [|c s IH]; intros line; simpl.
  - intros [<-|[]]. easy.
  - destruct (Ascii.eqb_spec c sep) as [->|Hne].
    + intros [<-|H]; [easy | now apply IH].
    + destruct (Split s sep) as [|l ls] eqn:Hs.
      * intros [<-|[]]. intros [H|[]]. congruence.
      * intros [<-|H].
        -- intros [Heq|Hin]; [congruence|]. apply (IH l); [now left | exact Hin].
        -- apply IH. now right.
Qed.

Lemma Split_head_prefix (sep : ascii) (s l : gostring) (ls : list gostring) :
  Split s sep = l :: ls -> exists r, s = l ++ r.
Proof.
  revert l ls; induction s as [|c s IH]; intros l ls; simpl.
  - intros [= <- _]. now exists [].
  - destruct (Ascii.eqb c sep).
    + intros [= <- _]. now exists (c :: s).
    + destruct (Split s sep) as [|l' ls'] eqn:Hs;
        [now apply Split_not_nil in Hs|].
      intros [= <- _]. destruct (IH _ _ eq_refl) as [r ->]. now exists r.
Qed.

Lemma Split_line_occurs (sep : ascii) (s line : gostring) :
  In line (Split s sep) -> occurs_in line s.
Proof.
  revert line; induction s as [|c s IH]; intros line; simpl.
  - intros [<-|[]]. now exists [], [].
  - assert (Hlater : In line (Split s sep) -> occurs_in line (c :: s)).
    { intros H. destruct (IH _ H) as (p & q & ->). now exists (c :: p), q. }
    destruct (Ascii.eqb c sep).
    + intros [<-|H]; [now exists [], (c :: s) | auto].
    + destruct (Split s sep) as [|l ls] eqn:Hs;
        [now apply Split_not_nil in Hs|].
      intros [<-|H]; [|apply Hlater; now right].
      destruct (Split_head_prefix _ _ Hs) as [r ->]. now exists [], r.
Qed.

Lemma collectFiles_filter (lines files : list gostring) :
  collectFiles lines files
  = files ++ filter (fun line => negb (eqb line [] || HasPrefix line (lit "#")))
               (map TrimSpace lines).
Proof.
  revert files; induction lines as [|line lines IH]; intros files.
  - simpl. now rewrite app_nil_r.
  - cbn [collectFiles map filter]. cbv zeta.
    destruct (eqb (TrimSpace line) [] || HasPrefix (TrimSpace line) (lit "#"));
      cbn [negb]; rewrite IH; [reflexivity | now rewrite <- app_assoc].
Qed.

(** X11. When the list file can be read, [readInputFiles] returns, in the
    order of the file, its lines trimmed of white space, without the empty
    ones and the ones that start with "#" once trimmed.  So every name
    returned is a non-empty part of the file that does not start with "#",
    has no line break in it and no white space at either end; and a file
    of white space only gives no name. *)
Theorem readInputFiles_names
    (os_ReadFile : gostring -> gostring + gostring) (fileName data : gostring) :
  os_ReadFile fileName = inr data ->
  exists files,
    readInputFiles os_ReadFile fileName = Ok files
    /\ files
       = filter (fun line => negb (eqb line [] || HasPrefix line (lit "#")))
           (map TrimSpace (Split (TrimSpace data) LF))
    /\ (forall name, In name files ->
          name <> [] /\ HasPrefix name (lit "#") = false
          /\ TrimSpace name = name /\ ~ In LF name /\ occurs_in name data)
    /\ (TrimSpace data = [] -> files = []).
Proof.
  intros Hread. unfold readInputFiles. rewrite Hread. cbv zeta.
  rewrite collectFiles_filter. simpl app. eexists. split; [reflexivity|].
  split; [reflexivity|]. split.
  - intros name Hin. apply filter_In in Hin. destruct Hin as [Hin Hkeep].
    apply negb_true_iff, orb_false_iff in Hkeep. destruct Hkeep as [Hne Hc].
    apply in_map_iff in Hin. destruct Hin as (line & <- & Hline).
    split; [now apply eqb_neq|]. split; [exact Hc|].
    split; [apply TrimSpace_idempotent|].
    destruct (TrimSpace_spec line) as ((b1 & a1 & Hl) & _).
    split.
    + intros HLF. apply (Split_lines_no_sep _ _ _ Hline). rewrite Hl.
      rewrite !in_app_iff. auto.
    + destruct (TrimSpace_spec data) as ((b2 & a2 & Hd) & _).
      assert (Hin : occurs_in line (TrimSpace data))
        by (now apply (Split_line_occurs LF)).
      apply (occurs_in_trans (b := line)); [now exists b1, a1|].
      apply (occurs_in_trans Hin). now exists b2, a2.
  - intros ->. reflexivity.
Qed.

Lemma readInputFiles_names_witness :
  exists files,
    readInputFiles (oneFile (lit "\n  a.txt \n# note\n\n dir/b c.md\n   #x\n"))
      (lit "list.txt")
    = Ok files
    /\ files = [lit "a.txt"; lit "dir/b c.md"].
Proof.
  destruct (@readInputFiles_names
              (oneFile (lit "\n  a.txt \n# note\n\n dir/b c.md\n   #x\n"))
              (lit "list.txt") _ eq_refl) as (files & H1 & H2 & _).
  exists files. split; [exact H1|]. rewrite H2. reflexivity.
Defined.

End TrimSpaceFacts.

(** * A fenced completion, end to end *)

Section FencedCompletion.
Variable W : Type.

(** X12. In optimized mode, when the first choice of the completion is one
    fenced block (an opening fence line with any tag, a body that holds no
    fence, a closing fence), the raw result keeps the fences and Result is
    the body alone, ended by a line terminator: the body itself when it
    ends with one, the body and one "\n" otherwise.  The first-code-block
    option makes no difference. *)
Theorem ShapeText_fenced_completion (s : Shaper W) promptOrg inputOrg w tr
    cr w1 comp w2 choice others tag body :
  eqb inputOrg [] && negb (promptOptimize s) = false ->
  MakeCreateChatCompletion (gai s) (optimizePrompt promptOrg inputOrg) w
  = (cr, w1) ->
  RequestCreateChatCompletion (gai s) cr w1 = (Ok comp, w2) ->
  Choices comp = choice :: others ->
  Content (Message choice)
  = lit "```" ++ tag ++ lit "\n" ++ body ++ lit "\n```" ->
  ~ In LF tag ->
  ~ occurs_in (lit "```") body ->
  fst (ShapeText s promptOrg inputOrg (w, tr))
  = Ok {| Prompt := optimizePrompt promptOrg inputOrg;
          RawResult := lit "```" ++ tag ++ lit "\n" ++ body ++ lit "\n```";
          Result := if HasSuffix body (lit "\n") then body
                    else body ++ lit "\n" |}.
Proof.
  intros Hmode Hmake Hreq Hch Hcontent Htag Hbody.
  pose proof (ShapeText_eq s promptOrg inputOrg w tr) as H. cbv zeta in H.
  rewrite Hmode in H. rewrite Hmake, Hreq in H. rewrite H. cbn [fst].
  unfold answerOf, Ok. rewrite Hch, Hcontent.
  rewrite (@optimizeResponseResult_fenced tag body (useFirstCodeBlock s) Htag).
  rewrite (@FindStringSubmatch_no_fence body Hbody).
  unfold NewShapeResult. change (lit "\n") with [LF].
  destruct (useFirstCodeBlock s); unfold Ok; cbv iota beta;
    destruct (HasSuffix body [LF]); reflexivity.
Qed.

End FencedCompletion.

Lemma ShapeText_fenced_completion_witness :
  fst (ShapeText (NewShaper scriptedClient 1 true true) (lit "fix") (lit "txt")
         ([Ok (completionOf [(lit "```go\nx := 1\n```", lit "stop")])], []))
  = Ok {| Prompt := optimizePrompt (lit "fix") (lit "txt");
          RawResult := lit "```go\nx := 1\n```";
          Result := lit "x := 1\n" |}.
Proof.
  apply (@ShapeText_fenced_completion _ (NewShaper scriptedClient 1 true true)
           (lit "fix") (lit "txt")
           [Ok (completionOf [(lit "```go\nx := 1\n```", lit "stop")])] []
           _ _ _ _ _ _ (lit "go") (lit "x := 1")
           eq_refl eq_refl eq_refl eq_refl eq_refl).
  - simpl. intuition discriminate.
  - intros (p & q & H). simpl in H.
    repeat (destruct p as [|? p]; simpl in H; try discriminate).
Defined.
